(** * Casino-Club F2P: purchase request helper, constraint migration,
      purchase ledger and game statistics

    The development follows the repository:
    - [Json] and [Actions] embed [cc-webapp/frontend/utils/actions.ts];
    - [Migration] embeds the Alembic revision [20250909_consolidate_constraints];
    - [Ledger] models the purchase contract behind [POST /api/shop/purchase];
    - [Stats] models the derivation rules of the game-stats details schema. *)

From stdpp Require Import base numbers option list strings gmap fin_maps pretty.
From Stdlib Require Import ZArith Lia Ascii.

Local Open Scope string_scope.
Local Open Scope Z_scope.

(* ===================================================================== *)
(** ** JavaScript values and [JSON.stringify] *)
(* ===================================================================== *)

Module Json.

(** Acyclic JavaScript values as they reach [JSON.stringify]. A [number] is
    integer valued (identifiers, gem amounts, counts). Strings are the UTF-8
    bytes of the JavaScript string. *)
#[local] Unset Elimination Schemes.
Inductive js : Type :=
| JUndefined
| JNull
| JBool (b : bool)
| JNum (n : Z)
| JStr (s : string)
| JArr (items : list js)
| JObj (props : list (string * js)).
#[local] Set Elimination Schemes.

(** JavaScript truthiness, as used by [||]. *)
Definition truthy (v : js) : bool :=
  match v with
  | JUndefined | JNull => false
  | JBool b => b
  | JNum n => negb (n =? 0)%Z
  | JStr s => negb (String.eqb s EmptyString)
  | JArr _ | JObj _ => true
  end.

(** [a || b] *)
Definition js_or (a b : js) : js := if truthy a then a else b.

(** An optional property read: [payload.k] of a [k?: string] field. *)
Definition of_opt_string (o : option string) : js :=
  match o with Some s => JStr s | None => JUndefined end.

Definition hex_digit (n : N) : ascii :=
  match n with
  | 0 => "0" | 1 => "1" | 2 => "2" | 3 => "3" | 4 => "4" | 5 => "5"
  | 6 => "6" | 7 => "7" | 8 => "8" | 9 => "9" | 10 => "a" | 11 => "b"
  | 12 => "c" | 13 => "d" | 14 => "e" | _ => "f"
  end%N%char.

Definition dquote : string := String (ascii_of_N 34) EmptyString.

(** The escape of one code unit inside a JSON string literal. *)
Definition escape_char (c : ascii) : string :=
  let n := N_of_ascii c in
  if (n =? 34)%N then "\" +:+ dquote
  else if (n =? 92)%N then "\\"
  else if (n =? 8)%N then "\b"
  else if (n =? 9)%N then "\t"
  else if (n =? 10)%N then "\n"
  else if (n =? 12)%N then "\f"
  else if (n =? 13)%N then "\r"
  else if (n <? 32)%N then
    "\u00" +:+ String (hex_digit (n / 16)) (String (hex_digit (n mod 16)) EmptyString)
  else String c EmptyString.

Fixpoint escape (s : string) : string :=
  match s with
  | EmptyString => EmptyString
  | String c s' => escape_char c +:+ escape s'
  end.

(** [QuoteJSONString] *)
Definition quote (s : string) : string := dquote +:+ escape s +:+ dquote.

Definition join_comma (parts : list string) : string :=
  match parts with
  | [] => EmptyString
  | p :: ps => fold_left (λ acc q, acc +:+ "," +:+ q) ps p
  end.

(** [SerializeJSONProperty]: [None] is the JavaScript [undefined] result. *)
Fixpoint serialize (v : js) : option string :=
  match v with
  | JUndefined => None
  | JNull => Some "null"
  | JBool true => Some "true"
  | JBool false => Some "false"
  | JNum n => Some (pretty n)
  | JStr s => Some (quote s)
  | JArr items =>
      Some ("[" +:+ join_comma (map (λ x, default "null" (serialize x)) items) +:+ "]")
  | JObj props =>
      Some ("{" +:+
            join_comma
              (omap (λ kv, match serialize (snd kv) with
                           | Some t => Some (quote (fst kv) +:+ ":" +:+ t)
                           | None => None
                           end) props)
            +:+ "}")
  end.

(** [JSON.stringify(v)] with no replacer and no indentation. *)
Definition JSON_stringify (v : js) : option string := serialize v.

End Json.

(* ===================================================================== *)
(** ** [cc-webapp/frontend/utils/actions.ts] *)
(* ===================================================================== *)

Module Actions.
Import Json.

(** [type ActionPayload]; the object is serialised with its properties in
    the order of the type declaration. *)
Module ActionPayload.
Record t : Type := mk {
  user_id : Z;
  action_type : string;
  context : option (list (string * js))
}.

Definition to_js (p : t) : js :=
  JObj [("user_id", JNum (user_id p));
        ("action_type", JStr (action_type p));
        ("context", match context p with Some c => JObj c | None => JUndefined end)].
End ActionPayload.

(** [type ShopBuyPayload & { idempotency_key?: string }] *)
Module ShopBuyPayload.
Record t : Type := mk {
  user_id : Z;
  product_id : string;
  amount : Z;
  quantity : option Z;
  metadata : option (list (string * js));
  idempotency_key : option string
}.
End ShopBuyPayload.

(** The options object handed to [apiRequest]. *)
Record RequestInit : Type := { method : string; body : option string }.

(** What awaiting a promise gives: the resolved value, or the thrown one. *)
Inductive outcome (Err : Type) : Type :=
| Resolved (v : js)
| Rejected (e : Err).
Arguments Resolved {Err} v.
Arguments Rejected {Err} e.

Section WithApi.
(** [apiRequest] is imported from [./api]; it talks to the backend, whose
    state is [World]. *)
Variable World : Type.
Variable Err : Type.
Variable apiRequest : string → RequestInit → World → outcome Err * World.

Definition postAction (payload : ActionPayload.t) (w : World) : outcome Err * World :=
  apiRequest "/api/actions"
    {| method := "POST"; body := JSON_stringify (ActionPayload.to_js payload) |} w.

(** [for (const p of payloads) results.push(await postAction(p))]: stops
    at the first rejected post. *)
Fixpoint post_each (payloads : list ActionPayload.t) (results : list js) (w : World)
  : (list js + Err) * World :=
  match payloads with
  | [] => (inl results, w)
  | p :: ps =>
      match postAction p w with
      | (Resolved r, w') => post_each ps (results ++ [r]) w'
      | (Rejected e, w') => (inr e, w')
      end
  end.

Definition bulk_request (payloads : list ActionPayload.t) : RequestInit :=
  {| method := "POST";
     body := JSON_stringify (JObj [("items", JArr (map ActionPayload.to_js payloads))]) |}.

Definition logged (n : nat) : js := JObj [("logged", JNum (Z.of_nat n))].

Definition postActionsBatch (payloads : list ActionPayload.t) (w : World)
  : outcome Err * World :=
  match apiRequest "/api/actions/bulk" (bulk_request payloads) w with
  | (Resolved r, w1) => (Resolved r, w1)
  | (Rejected err, w1) =>
      match post_each payloads [] w1 with
      | (inl results, w2) => (Resolved (logged (length results)), w2)
      | (inr _, w2) => (Rejected err, w2)
      end
  end.

Definition buyProduct (payload : ShopBuyPayload.t) (w : World) : outcome Err * World :=
  let product_id := ShopBuyPayload.product_id payload in
  let body :=
    JObj [("product_id", JStr product_id);
          ("idempotency_key",
           js_or (of_opt_string (ShopBuyPayload.idempotency_key payload)) JUndefined)] in
  apiRequest "/api/shop/purchase"
    {| method := "POST"; body := JSON_stringify body |} w.

(** The sequential fallback goes through: every single post resolves, each
    one issued in the world the previous one left. *)
Fixpoint sequential_ok (payloads : list ActionPayload.t) (w : World) : bool :=
  match payloads with
  | [] => true
  | p :: ps =>
      match postAction p w with
      | (Resolved _, w') => sequential_ok ps w'
      | (Rejected _, _) => false
      end
  end.

(** The backend after the fallback loop: each post is issued in the world
    the previous one left, up to the first rejected one. *)
Fixpoint posts_world (payloads : list ActionPayload.t) (w : World) : World :=
  match payloads with
  | [] => w
  | p :: ps =>
      match postAction p w with
      | (Resolved _, w') => posts_world ps w'
      | (Rejected _, w') => w'
      end
  end.

(** The key that reaches the server: an empty string counts as no key. *)
Definition sent_key (k : option string) : option string :=
  match k with
  | Some s => if decide (s = EmptyString) then None else Some s
  | None => None
  end.

(** The object whose serialisation the purchase endpoint receives. *)
Definition purchase_body (product_id : string) (k : option string) : js :=
  match k with
  | Some s => JObj [("product_id", JStr product_id); ("idempotency_key", JStr s)]
  | None => JObj [("product_id", JStr product_id)]
  end.

End WithApi.

End Actions.

(* ===================================================================== *)
(** ** Alembic revision [20250909_consolidate_constraints] *)
(* ===================================================================== *)

Module Migration.

(** *** The database as the revision sees it *)

Inductive value : Type :=
| VNull
| VInt (n : Z)
| VStr (s : string).

Global Instance value_eq_dec : EqDecision value.
Proof. solve_decision. Defined.

(** A row maps column names to values; a column that is not set is NULL. *)
Abbreviation row := (gmap string value).

Definition cell (r : row) (c : string) : value := default VNull (r !! c).

Definition is_null (r : row) (c : string) : bool :=
  match cell r c with VNull => true | _ => false end.

(** One entry of [inspector.get_unique_constraints]. *)
Record unique_constraint : Type := {
  name : string;
  column_names : list string
}.

(** One entry of [inspector.get_columns]; [nullable] may be missing from
    the dictionary. *)
Record column : Type := {
  col_name : string;
  nullable : option bool
}.

Record table : Type := {
  columns : list column;
  uniques : list unique_constraint;
  rows : list row
}.

Abbreviation database := (gmap string table).

(** Operations either go through or raise, which aborts the revision. *)
Inductive result (A : Type) : Type :=
| Ok (a : A)
| Raise (msg : string).
Arguments Ok {A} a.
Arguments Raise {A} msg.

Global Instance result_ret : MRet result := λ A a, Ok a.
Global Instance result_bind : MBind result := λ A B f m,
  match m with Ok a => f a | Raise msg => Raise msg end.

(** [op.drop_constraint(name, table, type_='unique')]:
    ALTER TABLE table DROP CONSTRAINT name. *)
Definition drop_constraint (n : string) (tbl : string) (db : database) : result database :=
  match db !! tbl with
  | None => Raise "relation does not exist"
  | Some t =>
      if bool_decide (n ∈ map name (uniques t)) then
        Ok (<[tbl := {| columns := columns t;
                        uniques := filter (λ u, name u ≠ n) (uniques t);
                        rows := rows t |}]> db)
      else Raise "constraint does not exist"
  end.

(** [conn.execute(sa.text("DELETE FROM tbl WHERE col IS NULL"))] *)
Definition delete_where_null (tbl col : string) (db : database) : result database :=
  match db !! tbl with
  | None => Raise "relation does not exist"
  | Some t =>
      Ok (<[tbl := {| columns := columns t;
                      uniques := uniques t;
                      rows := filter (λ r, is_null r col = false) (rows t) |}]> db)
  end.

Definition set_not_null (col : string) (c : column) : column :=
  if bool_decide (col_name c = col)
  then {| col_name := col_name c; nullable := Some false |}
  else c.

(** [op.alter_column(tbl, col, existing_type=..., nullable=False)]:
    ALTER TABLE tbl ALTER COLUMN col SET NOT NULL, which the database
    refuses while a row holds NULL in that column. *)
Definition alter_column_not_null (tbl col : string) (db : database) : result database :=
  match db !! tbl with
  | None => Raise "relation does not exist"
  | Some t =>
      if bool_decide (col ∈ map col_name (columns t)) then
        if forallb (λ r, negb (is_null r col)) (rows t) then
          Ok (<[tbl := {| columns := map (set_not_null col) (columns t);
                          uniques := uniques t;
                          rows := rows t |}]> db)
        else Raise "column contains null values"
      else Raise "column does not exist"
  end.

(** *** [upgrade] *)

(** [[u['name'] for u in uniques if u['column_names'] in singles]] *)
Definition drop_names (singles : list (list string)) (us : list unique_constraint)
  : list string :=
  map name (filter (λ u, column_names u ∈ singles) us).

(** [for name in drop_names: op.drop_constraint(name, tbl, type_='unique')] *)
Fixpoint drop_each (names : list string) (tbl : string) (db : database) : result database :=
  match names with
  | [] => Ok db
  | n :: ns => db' ← drop_constraint n tbl db; drop_each ns tbl db'
  end.

(** One of the three constraint clean-ups: when the table exists, drop its
    unique constraints that span exactly one of the [singles]. *)
Definition cleanup_uniques (tbl : string) (singles : list (list string)) (db : database)
  : result database :=
  match db !! tbl with
  | Some t => drop_each (drop_names singles (uniques t)) tbl db
  | None => Ok db
  end.

(** [next((c for c in cols if c['name'] == 'user_id'), None)] *)
Definition find_column (col : string) (cols : list column) : option column :=
  List.find (λ c, bool_decide (col_name c = col)) cols.

(** The game_stats step: [user_col.get('nullable', True)] guards the
    delete and the alter. *)
Definition tighten_game_stats (db : database) : result database :=
  match db !! "game_stats" with
  | Some t =>
      match find_column "user_id" (columns t) with
      | Some user_col =>
          if default true (nullable user_col) then
            db1 ← delete_where_null "game_stats" "user_id" db;
            alter_column_not_null "game_stats" "user_id" db1
          else Ok db
      | None => Ok db
      end
  | None => Ok db
  end.

Definition upgrade (db : database) : result database :=
  db1 ← cleanup_uniques "shop_transactions" [["user_id"]; ["product_id"]] db;
  db2 ← cleanup_uniques "follow_relations" [["user_id"]; ["target_user_id"]] db1;
  db3 ← cleanup_uniques "event_mission_links" [["event_id"]; ["mission_template_id"]] db2;
  tighten_game_stats db3.

(** The revision runs in one transaction: when a step raises, the database
    is left as it was. *)
Inductive migration_status : Type := Applied | Aborted (msg : string).

Definition run_upgrade (db : database) : database * migration_status :=
  match upgrade db with
  | Ok db' => (db', Applied)
  | Raise msg => (db, Aborted msg)
  end.

(** *** Inserting rows under the constraints *)

(** The values a row has in the columns of a constraint, when none of them
    is NULL (a NULL never collides). *)
Definition key_of (cols : list string) (r : row) : option (list value) :=
  if forallb (λ c, negb (is_null r c)) cols then Some (map (cell r) cols) else None.

Definition collides (u : unique_constraint) (r r' : row) : bool :=
  match key_of (column_names u) r, key_of (column_names u) r' with
  | Some k, Some k' => bool_decide (k = k')
  | _, _ => false
  end.

Definition violates_unique (t : table) (r : row) : bool :=
  existsb (λ u, existsb (collides u r) (rows t)) (uniques t).

Definition violates_not_null (t : table) (r : row) : bool :=
  existsb (λ c, negb (default true (nullable c)) && is_null r (col_name c)) (columns t).

(** INSERT INTO tbl: refused on a NOT NULL or unique violation. *)
Definition insert_row (tbl : string) (r : row) (db : database) : result database :=
  match db !! tbl with
  | None => Raise "relation does not exist"
  | Some t =>
      if violates_not_null t r then Raise "null value violates not-null constraint"
      else if violates_unique t r then Raise "duplicate key value violates unique constraint"
      else Ok (<[tbl := {| columns := columns t;
                           uniques := uniques t;
                           rows := rows t ++ [r] |}]> db)
  end.

(** The row a purchase adds to shop_transactions. *)
Definition purchase_row (user_id : Z) (product_id : string) (idempotency_key : string)
  : row :=
  {[ "user_id" := VInt user_id;
     "product_id" := VStr product_id;
     "idempotency_key" := VStr idempotency_key ]}.

(** *** Well-formed schemas and the facts the properties speak about *)

(** Constraint names are unique within a table. *)
Definition names_unique (t : table) : Prop := NoDup (map name (uniques t)).

Global Instance names_unique_dec t : Decision (names_unique t).
Proof. unfold names_unique. apply _. Defined.

(** Every table of the database has unique constraint names. *)
Definition schema_ok (db : database) : Prop := map_Forall (λ _ t, names_unique t) db.

Global Instance schema_ok_dec db : Decision (schema_ok db).
Proof. unfold schema_ok. apply _. Defined.

Definition single_column (col : string) (u : unique_constraint) : Prop :=
  column_names u = [col].

Definition composite_key : list string := ["user_id"; "product_id"; "idempotency_key"].

(** A table with its unique constraints replaced. *)
Definition with_uniques (t : table) (us : list unique_constraint) : table :=
  {| columns := columns t; uniques := us; rows := rows t |}.

(** What the game_stats step makes of the table: when the inspector reports
    a nullable user_id column, the rows without a user are gone and the
    column is NOT NULL. *)
Definition tightened (t : table) : table :=
  match find_column "user_id" (columns t) with
  | Some c =>
      if default true (nullable c)
      then {| columns := map (set_not_null "user_id") (columns t);
              uniques := uniques t;
              rows := filter (λ r, is_null r "user_id" = false) (rows t) |}
      else t
  | None => t
  end.

Definition has_null_rows (tbl col : string) (db : database) : bool :=
  match db !! tbl with
  | Some t => existsb (λ r, is_null r col) (rows t)
  | None => false
  end.

Definition column_not_null (tbl col : string) (db : database) : bool :=
  match db !! tbl with
  | Some t =>
      match find_column col (columns t) with
      | Some c => negb (default true (nullable c))
      | None => false
      end
  | None => false
  end.

End Migration.

(* ===================================================================== *)
(** ** The purchase ledger *)
(* ===================================================================== *)

Module Ledger.

(** The purchase service behind [POST /api/shop/purchase] is not among the
    sources: only the client helper [buyProduct] and the constraint
    revision are. This module follows the contract
    [purchase(user_id, product_id, idempotency_key?) -> PurchaseResult] of
    the specification. *)

(** Client-supplied keys and server-generated ones live in separate name
    spaces, so a generated key was never seen before. *)
Inductive idem_key : Type :=
| ClientKey (k : string)
| ServerKey (n : nat).

Global Instance idem_key_eq_dec : EqDecision idem_key.
Proof. solve_decision. Defined.

Record PurchaseRecord : Type := {
  user_id : Z;
  product_id : string;
  idempotency_key : idem_key;
  amount : Z;
  status : string;
  created_at : nat
}.

Global Instance PurchaseRecord_eq_dec : EqDecision PurchaseRecord.
Proof. solve_decision. Defined.

Inductive PurchaseResult : Type :=
| Purchased (r : PurchaseRecord)
| InsufficientFunds
| ProductNotFound.

(** One applied charge. *)
Record Charge : Type := {
  charged_user : Z;
  charged_product : string;
  charged_key : idem_key;
  charged_amount : Z
}.

Global Instance Charge_eq_dec : EqDecision Charge.
Proof. solve_decision. Defined.

Record state : Type := {
  records : list PurchaseRecord;      (* the ledger table *)
  balances : gmap Z Z;                (* user -> gems *)
  charges : list Charge;              (* every charge applied so far *)
  grants : list (Z * string);         (* every product granted so far *)
  next_key : nat;                     (* server key generator *)
  clock : nat                         (* logical time of the next insert *)
}.

(** The price list. *)
Abbreviation catalog := (gmap string Z).

Definition balance (s : state) (u : Z) : Z := default 0 (balances s !! u).

Definition record_key (r : PurchaseRecord) : Z * string * idem_key :=
  (user_id r, product_id r, idempotency_key r).

Definition charge_key (c : Charge) : Z * string * idem_key :=
  (charged_user c, charged_product c, charged_key c).

(** The read by (user_id, product_id, idempotency_key). *)
Definition find_record (u : Z) (p : string) (k : idem_key) (rs : list PurchaseRecord)
  : option PurchaseRecord :=
  List.find (λ r, bool_decide (record_key r = (u, p, k))) rs.

Definition new_record (u : Z) (p : string) (k : idem_key) (price : Z) (s : state)
  : PurchaseRecord :=
  {| user_id := u; product_id := p; idempotency_key := k;
     amount := price; status := "completed"; created_at := clock s |}.

(** Insert the record and apply the charge and the grant, as one unit. *)
Definition commit (u : Z) (p : string) (k : idem_key) (price : Z) (s : state) : state :=
  {| records := records s ++ [new_record u p k price s];
     balances := <[u := balance s u - price]> (balances s);
     charges := charges s ++ [{| charged_user := u; charged_product := p;
                                 charged_key := k; charged_amount := price |}];
     grants := grants s ++ [(u, p)];
     next_key := next_key s;
     clock := S (clock s) |}.

Definition take_server_key (s : state) : state :=
  {| records := records s; balances := balances s; charges := charges s;
     grants := grants s; next_key := S (next_key s); clock := clock s |}.

(** The outcome of the guarded insert. *)
Inductive insert_outcome : Type :=
| Inserted (r : PurchaseRecord) (s' : state)
| Conflict
| Refused (why : PurchaseResult).

(** Modelled from the spec: the purchase service is missing. "Atomically
    insert the record and apply the charge/grant as one unit", the insert
    "guarded by the unique constraint"; "insufficient balance ->
    InsufficientFunds; unknown product -> ProductNotFound"; a purchase that
    cannot be paid for inserts nothing. *)
Definition insert_and_charge (cat : catalog) (u : Z) (p : string) (k : idem_key) (s : state)
  : insert_outcome :=
  match find_record u p k (records s) with
  | Some _ => Conflict
  | None =>
      match cat !! p with
      | None => Refused ProductNotFound
      | Some price =>
          if balance s u <? price then Refused InsufficientFunds
          else Inserted (new_record u p k price s) (commit u p k price s)
      end
  end.

(** *** One request, step by step *)

Record request : Type := {
  rq_user : Z;
  rq_product : string;
  rq_key : option string
}.



(** *** [purchase]: one request served on its own *)

(** The guarded insert followed, on a conflict, by the read. *)
Definition purchase_with_key (cat : catalog) (u : Z) (p : string) (k : idem_key) (s : state)
  : PurchaseResult * state :=
  match insert_and_charge cat u p k s with
  | Inserted r s' => (Purchased r, s')
  | Conflict =>
      match find_record u p k (records s) with
      | Some r => (Purchased r, s)
      | None => (ProductNotFound, s)   (* not reached: a conflict means a record *)
      end
  | Refused why => (why, s)
  end.

(** Modelled from the spec: the purchase service is missing.
    [purchase(user_id, product_id, idempotency_key?) -> PurchaseResult]:
    an omitted key is a new purchase under a fresh key; an existing record
    is returned unchanged; otherwise the record is inserted and charged. *)
Definition purchase (cat : catalog) (u : Z) (p : string) (key : option string) (s : state)
  : PurchaseResult * state :=
  match key with
  | None => purchase_with_key cat u p (ServerKey (next_key s)) (take_server_key s)
  | Some ck =>
      match find_record u p (ClientKey ck) (records s) with
      | Some r => (Purchased r, s)
      | None => purchase_with_key cat u p (ClientKey ck) s
      end
  end.

(** *** Requests served concurrently *)








(** *** What the properties count *)

Definition record_count (u : Z) (p : string) (k : idem_key) (s : state) : nat :=
  length (filter (λ r, record_key r = (u, p, k)) (records s)).

Definition charge_count (u : Z) (p : string) (k : idem_key) (s : state) : nat :=
  length (filter (λ c, charge_key c = (u, p, k)) (charges s)).

Definition charge_of (r : PurchaseRecord) : Charge :=
  {| charged_user := user_id r; charged_product := product_id r;
     charged_key := idempotency_key r; charged_amount := amount r |}.

(** The ledger invariant: composite uniqueness of the records, one charge
    per record, and server keys below the generator. *)
Definition server_key_below (bound : nat) (r : PurchaseRecord) : Prop :=
  match idempotency_key r with
  | ServerKey n => (n < bound)%nat
  | ClientKey _ => True
  end.

Global Instance server_key_below_dec bound r : Decision (server_key_below bound r).
Proof. unfold server_key_below. destruct (idempotency_key r); apply _. Defined.

Definition ledger_ok (s : state) : Prop :=
  NoDup (map record_key (records s))
  ∧ charges s = map charge_of (records s)
  ∧ Forall (server_key_below (next_key s)) (records s).

Global Instance ledger_ok_dec s : Decision (ledger_ok s).
Proof. unfold ledger_ok. apply _. Defined.





Definition init (bal : gmap Z Z) : state :=
  {| records := []; balances := bal; charges := []; grants := [];
     next_key := 0; clock := 0 |}.

End Ledger.

(* ===================================================================== *)
(** ** Game statistics: details, aggregate and the read path *)
(* ===================================================================== *)

Module Stats.

(** The aggregator ([GameStatsService.aggregate_user_stats], behind
    [GET /api/games/stats/me]) is not among the sources: only the schema
    note with its derivation rules is. This module follows that note and
    the contract [getStats(user_id) -> {aggregate, details, last_updated}]
    of the specification. *)

(** The games of the API: crash, slot, gacha, rps. *)
Inductive GameType : Type := Crash | Slot | Gacha | Rps.

Global Instance GameType_eq_dec : EqDecision GameType.
Proof. solve_decision. Defined.

Definition game_types : list GameType := [Crash; Slot; Gacha; Rps].

Definition game_type_name (g : GameType) : string :=
  match g with
  | Crash => "crash"
  | Slot => "slot"
  | Gacha => "gacha"
  | Rps => "rps"
  end.

Module GameStatDetail.
Record t : Type := mk {
  user_id : Z;
  game_type : GameType;
  wins : Z;
  losses : Z;
  max_win : Z;
  total : Z
}.
End GameStatDetail.

Module GameStatAggregate.
(** [win_rate] is held in thousandths: 0.549 is 549. *)
Record t : Type := mk {
  user_id : Z;
  total_games_played : Z;
  total_wins : Z;
  total_losses : Z;
  win_rate : Z;
  overall_max_win : Z
}.
End GameStatAggregate.

Import GameStatDetail.
Abbreviation Detail := GameStatDetail.t.
Abbreviation Aggregate := GameStatAggregate.t.

Global Instance Detail_eq_dec : EqDecision Detail.
Proof. solve_decision. Defined.

Global Instance Aggregate_eq_dec : EqDecision Aggregate.
Proof. solve_decision. Defined.

(** [{wins:0, losses:0, max_win:0, total:0}] *)
Definition zero_detail (u : Z) (g : GameType) : Detail :=
  GameStatDetail.mk u g 0 0 0 0.

(** *** Detail records, updated as games resolve *)

Record GameResolved : Type := {
  ev_user : Z;
  ev_game : GameType;
  ev_won : bool;
  ev_payout : Z          (* what the player won, for a win *)
}.

Definition is_for (u : Z) (g : GameType) (d : Detail) : bool :=
  bool_decide (user_id d = u ∧ game_type d = g).

Definition lookup_detail (rows : list Detail) (u : Z) (g : GameType) : option Detail :=
  List.find (is_for u g) rows.

Definition bump (e : GameResolved) (d : Detail) : Detail :=
  if ev_won e
  then GameStatDetail.mk (user_id d) (game_type d)
         (wins d + 1) (losses d) (Z.max (max_win d) (ev_payout e)) (total d + 1)
  else GameStatDetail.mk (user_id d) (game_type d)
         (wins d) (losses d + 1) (max_win d) (total d + 1).

(** Modelled from the spec: the game-resolution writer is missing. "One
    record per (user, game_type); updated incrementally as games resolve":
    the record of (user, game type) is updated in place, or created. *)
Definition apply_event (e : GameResolved) (rows : list Detail) : list Detail :=
  match lookup_detail rows (ev_user e) (ev_game e) with
  | Some _ => map (λ d, if is_for (ev_user e) (ev_game e) d then bump e d else d) rows
  | None => rows ++ [bump e (zero_detail (ev_user e) (ev_game e))]
  end.

Definition resolve_all (evs : list GameResolved) (rows : list Detail) : list Detail :=
  fold_left (λ acc e, apply_event e acc) evs rows.

(** *** The details of a response *)

(** Modelled from the spec: the aggregator is missing. "Missing game types
    are synthesized as zero-valued records rather than omitted": a game
    type without a record gets [{wins:0, losses:0, max_win:0, total:0}]. *)
Definition pick (rows : list Detail) (u : Z) (g : GameType) : Detail :=
  default (zero_detail u g) (lookup_detail rows u g).

(** One entry per game type, in the order crash, slot, gacha, rps. *)
Definition details_of (rows : list Detail) (u : Z) : list Detail :=
  map (pick rows u) game_types.

(** *** The aggregate *)

Definition foldZ {A} (op : Z → Z → Z) (f : A → Z) (l : list A) : Z :=
  foldr (λ x acc, op (f x) acc) 0 l.

(** [sum(...)] *)
Definition sumZ {A} (f : A → Z) (l : list A) : Z := foldZ Z.add f l.

(** [max(..., default=0)] *)
Definition maxZ {A} (f : A → Z) (l : list A) : Z := foldZ Z.max f l.

(** [a / b] rounded to the nearest integer, ties to the even one, for
    [0 < b]: Python's [round] on the exact quotient. *)
Definition round_half_even (a b : Z) : Z :=
  let q := a / b in
  let r := a mod b in
  if 2 * r <? b then q
  else if b <? 2 * r then q + 1
  else if Z.even q then q else q + 1.

(** A division that raises on a zero divisor. *)
Definition checked (divisor : Z) : option Z :=
  if divisor =? 0 then None else Some divisor.

(** Modelled from the spec: the aggregator is missing.
    [win_rate = round(total_wins / max(1, total_games_played), 3)], over
    exact quotients and in thousandths; [None] is ZeroDivisionError. *)
Definition win_rate_of (total_wins total_games_played : Z) : option Z :=
  d ← checked (Z.max 1 total_games_played);
  Some (round_half_even (1000 * total_wins) d).

Definition user_rows (rows : list Detail) (u : Z) : list Detail :=
  filter (λ d, user_id d = u) rows.

(** Modelled from the spec: the aggregator is missing. The aggregate of a
    user, derived from the records of the game_stats table:
    total_games_played = sum(total), total_wins = sum(wins),
    overall_max_win = max(max_win), win_rate as above. *)
Definition recompute (rows : list Detail) (u : Z) : option Aggregate :=
  let mine := user_rows rows u in
  let games := sumZ total mine in
  let won := sumZ wins mine in
  rate ← win_rate_of won games;
  Some (GameStatAggregate.mk u games won (sumZ losses mine) rate (maxZ max_win mine)).

(** *** The read path *)

Record cache_entry : Type := { cached : Aggregate; stored_at : nat }.

Record state : Type := {
  rows : list Detail;               (* game_stats *)
  cache : gmap Z cache_entry;       (* cache:game_stats:user:{id}:v2 *)
  warnings : list string            (* the server log *)
}.

Definition ttl : nat := 5.

Definition cache_get (now : nat) (u : Z) (st : state) : option cache_entry :=
  e ← cache st !! u;
  if (now <? stored_at e + ttl)%nat then Some e else None.

Definition cache_put (u : Z) (a : Aggregate) (now : nat) (st : state) : state :=
  {| rows := rows st;
     cache := <[u := {| cached := a; stored_at := now |}]> (cache st);
     warnings := warnings st |}.

Definition warn (msg : string) (st : state) : state :=
  {| rows := rows st; cache := cache st; warnings := warnings st ++ [msg] |}.

(** A game resolves: the detail record is updated; the cached aggregate
    stays until it expires. *)
Definition resolve (e : GameResolved) (st : state) : state :=
  {| rows := apply_event e (rows st); cache := cache st; warnings := warnings st |}.

Record StatsResponse : Type := {
  success : bool;
  aggregate : Aggregate;
  details : list Detail;
  last_updated : nat
}.

Definition drift_warning : string := "game stats drift: aggregate recomputed from details".

(** Modelled from the spec: the aggregator is missing. [getStats(user_id)]
    at time [now]: "reads from a cache keyed by user id with a short
    time-to-live; on miss, recomputes from the per-game-type detail
    records"; "on every read, verifies sum(details.wins) ==
    aggregate.total_wins; on mismatch, logs a warning and triggers a
    recomputation of the aggregate from the details". [None] is an error
    surfaced to the caller. *)
Definition getStats (u : Z) (now : nat) (st : state) : option (StatsResponse * state) :=
  let ds := details_of (rows st) u in
  '(e, st1) ← match cache_get now u st with
              | Some e => Some (e, st)
              | None =>
                  a ← recompute (rows st) u;
                  Some ({| cached := a; stored_at := now |}, cache_put u a now st)
              end;
  if sumZ wins ds =? GameStatAggregate.total_wins (cached e) then
    Some ({| success := true; aggregate := cached e; details := ds;
             last_updated := stored_at e |}, st1)
  else
    a ← recompute (rows st) u;
    Some ({| success := true; aggregate := a; details := ds; last_updated := now |},
          cache_put u a now (warn drift_warning st1)).

(** *** Invariants of the game_stats table *)

Definition detail_key (d : Detail) : Z * GameType := (user_id d, game_type d).

Definition detail_ok (d : Detail) : Prop :=
  total d = wins d + losses d ∧ 0 ≤ wins d ∧ 0 ≤ losses d ∧ 0 ≤ max_win d.

(** One record per (user, game type), each with total = wins + losses and
    counters that are not negative. *)
Definition rows_ok (rows : list Detail) : Prop :=
  NoDup (map detail_key rows) ∧ Forall detail_ok rows.

Global Instance detail_ok_dec d : Decision (detail_ok d).
Proof. unfold detail_ok. apply _. Defined.

Global Instance rows_ok_dec rows : Decision (rows_ok rows).
Proof. unfold rows_ok. apply _. Defined.

End Stats.

(** A player with slot results only, and a cache that went stale. *)
Module StatsExamples.
Import Stats.

Definition slot_only : list GameResolved :=
  [ {| ev_user := 7; ev_game := Slot; ev_won := true; ev_payout := 500 |};
    {| ev_user := 7; ev_game := Slot; ev_won := false; ev_payout := 0 |};
    {| ev_user := 7; ev_game := Slot; ev_won := true; ev_payout := 120 |} ].

Definition stale : state :=
  {| rows := resolve_all slot_only [];
     cache := {[ 7 := {| cached := GameStatAggregate.mk 7 1 1 0 1000 500; stored_at := 10 |} ]};
     warnings := [] |}.

End StatsExamples.

(** A one-product shop and a user with 250 gems. *)
Module LedgerExamples.
Import Ledger.

Definition shop : catalog := {[ "gems_100" := 100 ]}.
Definition wallet : state := init {[ 7 := 250 ]}.

End LedgerExamples.

(** The schema the revision note describes, with one orphan game_stats row. *)
Module MigrationExamples.
Import Migration.

Definition shop_transactions_before : table :=
  {| columns := [ {| col_name := "user_id"; nullable := Some false |};
                  {| col_name := "product_id"; nullable := Some false |};
                  {| col_name := "idempotency_key"; nullable := Some true |};
                  {| col_name := "amount"; nullable := None |} ];
     uniques := [ {| name := "uq_shop_tx_user"; column_names := ["user_id"] |};
                  {| name := "uq_shop_tx_product"; column_names := ["product_id"] |};
                  {| name := "uq_shop_tx_user_product_idem";
                     column_names := ["user_id"; "product_id"; "idempotency_key"] |} ];
     rows := [] |}.

Definition game_stats_before : table :=
  {| columns := [ {| col_name := "id"; nullable := Some false |};
                  {| col_name := "user_id"; nullable := Some true |};
                  {| col_name := "game_type"; nullable := Some true |} ];
     uniques := [];
     rows := [ {[ "id" := VInt 1; "user_id" := VInt 7; "game_type" := VStr "slot" ]};
               {[ "id" := VInt 2; "game_type" := VStr "crash" ]};
               {[ "id" := VInt 3; "user_id" := VNull; "game_type" := VStr "rps" ]} ] |}.

Definition db_before : database :=
  {[ "shop_transactions" := shop_transactions_before;
     "game_stats" := game_stats_before ]}.

End MigrationExamples.

(** A backend for examples: the bulk route is down; single posts resolve
    while their [user_id] is not negative. The world counts the requests. *)
Module ActionsExamples.
Import Json Actions.

Definition flaky_api (url : string) (req : RequestInit) (w : nat) : outcome string * nat :=
  if decide (url = "/api/actions/bulk") then (Rejected "bulk unavailable", S w)
  else if decide (body req = JSON_stringify (ActionPayload.to_js (ActionPayload.mk (-1) "spin" None)))
       then (Rejected "rejected", S w)
       else (Resolved JNull, S w).

Definition spin (uid : Z) : ActionPayload.t := ActionPayload.mk uid "spin" None.

End ActionsExamples.

(* ===================================================================== *)
(** ** [cc-webapp/frontend/hooks/useAppNavigation.tsx] *)
(* ===================================================================== *)

Module Navigation.
Import Json.

(** [AppScreen] is imported from [../types], a union of string literals;
    the hook stores whatever string it is given. *)
Abbreviation AppScreen := string.

(** What [window.localStorage.getItem] does when the hook reads it. *)
Inductive get_result : Type :=
| GetThrows
| GetValue (v : option string).

(** [window], when there is one, with its [localStorage]. *)
Record Window : Type := { getItem : string → get_result }.

(** The two [useState] cells of the hook. *)
Record nav_state : Type := {
  currentScreen : AppScreen;
  isSideMenuOpen : bool
}.

Global Instance nav_state_eq_dec : EqDecision nav_state.
Proof. solve_decision. Defined.

(** The immediately invoked arrow function: the forced screen when the
    flag is a truthy string, ['loading'] otherwise and on any exception. *)
Definition initialScreen (window : option Window) : AppScreen :=
  match window with
  | Some w =>
      match getItem w "E2E_FORCE_SCREEN" with
      | GetValue forced =>
          if truthy (of_opt_string forced) then default "loading" forced else "loading"
      | GetThrows => "loading"
      end
  | None => "loading"
  end.

(** The state of the first render. *)
Definition mount (window : option Window) : nav_state :=
  {| currentScreen := initialScreen window; isSideMenuOpen := false |}.

Definition navigate (screen : AppScreen) (st : nav_state) : nav_state :=
  {| currentScreen := screen; isSideMenuOpen := false |}.

(** The keys of [navigationHandlers] other than [navigate]. *)
Inductive handler : Type :=
| toLogin | toSignup | toAdminLogin | toHome | toGames | toShop | toInventory
| toProfile | toSettings | toAdminPanel | toEventMissionPanel | toStreaming
| toSlot | toRPS | toGacha | toCrash
| backToHome | backToGames.

Definition handlers : list handler :=
  [toLogin; toSignup; toAdminLogin; toHome; toGames; toShop; toInventory;
   toProfile; toSettings; toAdminPanel; toEventMissionPanel; toStreaming;
   toSlot; toRPS; toGacha; toCrash; backToHome; backToGames].

(** The screen each handler passes to [navigate]. *)
Definition target (h : handler) : AppScreen :=
  match h with
  | toLogin => "login"
  | toSignup => "signup"
  | toAdminLogin => "admin-login"
  | toHome => "home-dashboard"
  | toGames => "game-dashboard"
  | toShop => "shop"
  | toInventory => "inventory"
  | toProfile => "profile"
  | toSettings => "settings"
  | toAdminPanel => "admin-panel"
  | toEventMissionPanel => "event-mission-panel"
  | toStreaming => "streaming"
  | toSlot => "neon-slot"
  | toRPS => "rock-paper-scissors"
  | toGacha => "gacha-system"
  | toCrash => "neon-crash"
  | backToHome => "home-dashboard"
  | backToGames => "game-dashboard"
  end.

(** [navigationHandlers.h()] *)
Definition call (h : handler) (st : nav_state) : nav_state := navigate (target h) st.

(** [setIsSideMenuOpen(prev => !prev)] *)
Definition toggleSideMenu (st : nav_state) : nav_state :=
  {| currentScreen := currentScreen st; isSideMenuOpen := negb (isSideMenuOpen st) |}.

Definition closeSideMenu (st : nav_state) : nav_state :=
  {| currentScreen := currentScreen st; isSideMenuOpen := false |}.

(** The [switch] of the bottom bar; the [default] branch does nothing. *)
Definition handleBottomNavigation (screen : string) (st : nav_state) : nav_state :=
  if String.eqb screen "home-dashboard" then navigate "home-dashboard" st
  else if String.eqb screen "game-dashboard" then navigate "game-dashboard" st
  else if String.eqb screen "shop" then navigate "shop" st
  else if String.eqb screen "profile" then navigate "profile" st
  else st.

(** *** What a user of the hook can do, and sequences of it *)

Inductive action : Type :=
| Navigate (screen : AppScreen)
| Call (h : handler)
| ToggleSideMenu
| CloseSideMenu
| BottomNavigation (screen : string).

Definition apply_action (a : action) (st : nav_state) : nav_state :=
  match a with
  | Navigate screen => navigate screen st
  | Call h => call h st
  | ToggleSideMenu => toggleSideMenu st
  | CloseSideMenu => closeSideMenu st
  | BottomNavigation screen => handleBottomNavigation screen st
  end.

Definition run (acts : list action) (st : nav_state) : nav_state :=
  fold_left (λ s a, apply_action a s) acts st.

(** The tabs of the bottom bar. *)
Definition bottom_tabs : list string :=
  ["home-dashboard"; "game-dashboard"; "shop"; "profile"].

(** The actions that end with the side menu closed. *)
Definition closes_menu (a : action) : bool :=
  match a with
  | Navigate _ | Call _ | CloseSideMenu => true
  | BottomNavigation screen => bool_decide (screen ∈ bottom_tabs)
  | ToggleSideMenu => false
  end.

Definition is_toggle (a : action) : bool :=
  match a with ToggleSideMenu => true | _ => false end.

(** The number of toggles after the last action that closes the menu. *)
Fixpoint toggles_since_close (acts : list action) : nat :=
  match acts with
  | [] => 0
  | a :: rest =>
      if existsb closes_menu rest then toggles_since_close rest
      else ((if is_toggle a then 1 else 0) + toggles_since_close rest)%nat
  end.

(** The screens handed to [navigate] directly. *)
Definition navigated (acts : list action) : list AppScreen :=
  omap (λ a, match a with Navigate screen => Some screen | _ => None end) acts.

End Navigation.

(* ===================================================================== *)
(** ** The requests [actions.ts] issues *)
(* ===================================================================== *)

Module ActionsTrace.
Import Json Actions.

(** One call of [apiRequest]: the path and the options. *)
Definition request : Type := string * RequestInit.

Section WithApi.
Variable World : Type.
Variable Err : Type.
Variable apiRequest : string → RequestInit → World → outcome Err * World.

(** [apiRequest] with a log of the calls made, oldest first. *)
Definition recorded (url : string) (init : RequestInit) (st : World * list request)
  : outcome Err * (World * list request) :=
  match apiRequest url init st.1 with
  | (o, w') => (o, (w', (st.2 ++ [(url, init)])%list))
  end.

(** The call [postAction] makes for a payload. *)
Definition post_request (p : ActionPayload.t) : request :=
  ("/api/actions",
   {| method := "POST"; body := JSON_stringify (ActionPayload.to_js p) |}).

(** How many payloads the fallback loop posts: all of them, or those up to
    and including the first rejected one. *)
Fixpoint attempted (payloads : list ActionPayload.t) (w : World) : nat :=
  match payloads with
  | [] => 0
  | p :: ps =>
      match postAction World Err apiRequest p w with
      | (Resolved _, w') => S (attempted ps w')
      | (Rejected _, _) => 1
      end
  end.

End WithApi.

(** *** Reading a JSON string literal back *)

Definition hex_value (c : ascii) : option N :=
  let n := N_of_ascii c in
  if (48 <=? n)%N && (n <=? 57)%N then Some (n - 48)%N
  else if (97 <=? n)%N && (n <=? 102)%N then Some (n - 87)%N
  else None.

Definition prepend (c : ascii) (r : option (string * string)) : option (string * string) :=
  match r with
  | Some (s, rest) => Some (String c s, rest)
  | None => None
  end.

(** Reads the characters of a string literal after its opening quote, up
    to the closing quote: the decoded string and what follows the literal.
    Understands the escapes [QuoteJSONString] produces. *)
Fixpoint read_literal (s : string) : option (string * string) :=
  match s with
  | EmptyString => None
  | String c s' =>
      if (N_of_ascii c =? 34)%N then Some (EmptyString, s')
      else if (N_of_ascii c =? 92)%N then
        match s' with
        | EmptyString => None
        | String e s'' =>
            let n := N_of_ascii e in
            if (n =? 34)%N then prepend (ascii_of_N 34) (read_literal s'')
            else if (n =? 92)%N then prepend (ascii_of_N 92) (read_literal s'')
            else if (n =? 98)%N then prepend (ascii_of_N 8) (read_literal s'')
            else if (n =? 116)%N then prepend (ascii_of_N 9) (read_literal s'')
            else if (n =? 110)%N then prepend (ascii_of_N 10) (read_literal s'')
            else if (n =? 102)%N then prepend (ascii_of_N 12) (read_literal s'')
            else if (n =? 114)%N then prepend (ascii_of_N 13) (read_literal s'')
            else if (n =? 117)%N then
              match s'' with
              | String h1 (String h2 (String h3 (String h4 rest))) =>
                  match hex_value h1, hex_value h2, hex_value h3, hex_value h4 with
                  | Some 0%N, Some 0%N, Some a, Some b =>
                      prepend (ascii_of_N (16 * a + b)) (read_literal rest)
                  | _, _, _, _ => None
                  end
              | _ => None
              end
            else None
        end
      else prepend c (read_literal s')
  end.

(** Reads a quoted string literal at the head of [s]. *)
Definition read_quoted (s : string) : option (string * string) :=
  match s with
  | String c s' => if (N_of_ascii c =? 34)%N then read_literal s' else None
  | EmptyString => None
  end.

End ActionsTrace.

(* ===================================================================== *)
(** ** The revision as a whole, and [downgrade] *)
(* ===================================================================== *)

Module MigrationDown.
Import Migration.

Definition set_nullable (col : string) (c : column) : column :=
  if bool_decide (col_name c = col)
  then {| col_name := col_name c; nullable := Some true |}
  else c.

(** [op.alter_column(tbl, col, existing_type=..., nullable=True)]:
    ALTER TABLE tbl ALTER COLUMN col DROP NOT NULL. *)
Definition alter_column_nullable (tbl col : string) (db : database) : result database :=
  match db !! tbl with
  | None => Raise "relation does not exist"
  | Some t =>
      if bool_decide (col ∈ map col_name (columns t)) then
        Ok (<[tbl := {| columns := map (set_nullable col) (columns t);
                        uniques := uniques t;
                        rows := rows t |}]> db)
      else Raise "column does not exist"
  end.

(** [downgrade]: only the nullability of game_stats.user_id is put back. *)
Definition downgrade (db : database) : result database :=
  alter_column_nullable "game_stats" "user_id" db.

(** The single-column lists of the three clean-ups. *)
Definition singles_of (tbl : string) : option (list (list string)) :=
  if String.eqb tbl "shop_transactions" then Some [["user_id"]; ["product_id"]]
  else if String.eqb tbl "follow_relations" then Some [["user_id"]; ["target_user_id"]]
  else if String.eqb tbl "event_mission_links"
       then Some [["event_id"]; ["mission_template_id"]]
  else None.

(** A table without its unique constraints over exactly one of [singles]. *)
Definition cleaned (singles : list (list string)) (t : table) : table :=
  with_uniques t (filter (λ u, column_names u ∉ singles) (uniques t)).

(** What the revision makes of the table called [tbl]. *)
Definition upgraded (tbl : string) (t : table) : table :=
  match singles_of tbl with
  | Some singles => cleaned singles t
  | None => if String.eqb tbl "game_stats" then tightened t else t
  end.

(** The tables the revision looks at. *)
Definition revised_tables : list string :=
  ["shop_transactions"; "follow_relations"; "event_mission_links"; "game_stats"].

End MigrationDown.

(** A follow graph and event links under the constraints of the revision
    note. *)
Module MigrationDownExamples.
Import Migration.

Definition follow_relations_before : table :=
  {| columns := [ {| col_name := "user_id"; nullable := Some false |};
                  {| col_name := "target_user_id"; nullable := Some false |} ];
     uniques := [ {| name := "uq_follow_user"; column_names := ["user_id"] |};
                  {| name := "uq_follow_target"; column_names := ["target_user_id"] |};
                  {| name := "uq_follow_pair";
                     column_names := ["user_id"; "target_user_id"] |} ];
     rows := [ {[ "user_id" := VInt 1; "target_user_id" := VInt 2 ]} ] |}.

Definition event_mission_links_before : table :=
  {| columns := [ {| col_name := "event_id"; nullable := Some false |};
                  {| col_name := "mission_template_id"; nullable := Some false |} ];
     uniques := [ {| name := "uq_link_event"; column_names := ["event_id"] |};
                  {| name := "uq_link_mission";
                     column_names := ["mission_template_id"] |};
                  {| name := "uq_link_pair";
                     column_names := ["event_id"; "mission_template_id"] |} ];
     rows := [ {[ "event_id" := VInt 10; "mission_template_id" := VInt 20 ]} ] |}.

Definition social_db : database :=
  {[ "follow_relations" := follow_relations_before;
     "event_mission_links" := event_mission_links_before;
     "game_stats" := MigrationExamples.game_stats_before;
     "users" := {| columns := [ {| col_name := "id"; nullable := Some false |} ];
                   uniques := [ {| name := "uq_users_id"; column_names := ["id"] |} ];
                   rows := [ {[ "id" := VInt 1 ]} ] |} ]}.

(** The same database without the statistics table. *)
Definition no_stats_db : database := delete "game_stats" social_db.

Definition follow (u target : Z) : row :=
  {[ "user_id" := VInt u; "target_user_id" := VInt target ]}.

Definition link (event mission : Z) : row :=
  {[ "event_id" := VInt event; "mission_template_id" := VInt mission ]}.

End MigrationDownExamples.

(** Two payloads for the same purchase: the price, the buyer and the empty
    key differ. *)
Module ActionsTraceExamples.
Import Json Actions.

Definition gems_with_empty_key : ShopBuyPayload.t :=
  ShopBuyPayload.mk 1 "gems_100" 100 None None (Some EmptyString).

Definition gems_without_key : ShopBuyPayload.t :=
  ShopBuyPayload.mk 2 "gems_100" 5 (Some 3) None None.

End ActionsTraceExamples.

(* ===================================================================== *)
(** * Properties *)
(* ===================================================================== *)

Module ListFacts.

Lemma filter_all {A} (P : A → Prop) `{∀ x, Decision (P x)} (l : list A) :
  (∀ x, x ∈ l → P x) → filter P l = l.
Proof.
  induction l as [|x l IH]; intros HP; [done|].
  rewrite filter_cons_True by (apply HP; left).
  f_equal. apply IH. intros y Hy. apply HP. by right.
Qed.

Lemma filter_ext_in {A} (P Q : A → Prop)
    `{∀ x, Decision (P x), ∀ x, Decision (Q x)} (l : list A) :
  (∀ x, x ∈ l → P x ↔ Q x) → filter P l = filter Q l.
Proof.
  induction l as [|x l IH]; intros HPQ; [done|].
  assert (filter P l = filter Q l) as Htl.
  { apply IH. intros y Hy. apply HPQ. by right. }
  rewrite !filter_cons, Htl.
  destruct (decide (P x)) as [HP|HP], (decide (Q x)) as [HQ|HQ]; try done.
  - exfalso. apply HQ, HPQ; [left|done].
  - exfalso. apply HP, HPQ; [left|done].
Qed.

Lemma filter_none {A} (P : A → Prop) `{∀ x, Decision (P x)} (l : list A) :
  (∀ x, x ∈ l → ¬ P x) → filter P l = [].
Proof.
  induction l as [|x l IH]; intros HP; [done|].
  rewrite filter_cons_False by (apply HP; left).
  apply IH. intros y Hy. apply HP. by right.
Qed.

(** With distinct keys, a key selects at most one element. *)
Lemma count_le_1 {A B} `{EqDecision B} (f : A → B) (b : B) (l : list A) :
  NoDup (map f l) → (length (filter (λ x, f x = b) l) ≤ 1)%nat.
Proof.
  induction l as [|x l IH]; simpl; [lia|].
  rewrite NoDup_cons. intros [Hx Hnd]. rewrite filter_cons.
  destruct (decide (f x = b)) as [Hb|Hb]; [|by apply IH].
  simpl. rewrite filter_none; [simpl; lia|].
  intros y Hy Hfy. apply Hx. rewrite Hb, <- Hfy.
  apply list_elem_of_fmap. eauto.
Qed.

Lemma count_ge_1 {A B} `{EqDecision B} (f : A → B) (b : B) (l : list A) (x : A) :
  x ∈ l → f x = b → (1 ≤ length (filter (λ x, f x = b) l))%nat.
Proof.
  intros Hx Hb.
  assert (x ∈ filter (λ x, f x = b) l) as Hin by by apply list_elem_of_filter.
  destruct (filter (λ x, f x = b) l); [by apply elem_of_nil in Hin | simpl; lia].
Qed.

Lemma filter_map_comm {A B} (g : A → B) (P : B → Prop) `{∀ y, Decision (P y)}
    (l : list A) :
  filter P (map g l) = map g (filter (λ x, P (g x)) l).
Proof.
  induction l as [|x l IH]; [done|]. simpl.
  rewrite !filter_cons, IH. by destruct (decide (P (g x))).
Qed.

Lemma append_assoc (a b c : string) : (a +:+ b) +:+ c = a +:+ (b +:+ c).
Proof.
  induction a as [|x a IH]; [done|].
  change (String x ((a +:+ b) +:+ c) = String x (a +:+ (b +:+ c))).
  by rewrite IH.
Qed.

End ListFacts.

Module ActionsSpec.
Import Json Actions ListFacts.

Section WithApi.
Variable World : Type.
Variable Err : Type.
Variable apiRequest : string → RequestInit → World → outcome Err * World.

Local Abbreviation postAction := (postAction World Err apiRequest).
Local Abbreviation post_each := (post_each World Err apiRequest).
Local Abbreviation postActionsBatch := (postActionsBatch World Err apiRequest).
Local Abbreviation buyProduct := (buyProduct World Err apiRequest).
Local Abbreviation sequential_ok := (sequential_ok World Err apiRequest).
Local Abbreviation posts_world := (posts_world World Err apiRequest).

Lemma post_each_ok payloads : ∀ results w,
  sequential_ok payloads w = true →
  ∃ rs, post_each payloads results w = (inl rs, posts_world payloads w)
        ∧ length rs = (length results + length payloads)%nat.
Proof.
  induction payloads as [|p ps IH]; intros results w Hok; simpl in *.
  - exists results. split; [done | lia].
  - destruct (postAction p w) as [[r|e] w'] eqn:Hp; [|done].
    destruct (IH (results ++ [r])%list w' Hok) as (rs & Hrun & Hlen).
    exists rs. split; [done|]. rewrite Hlen, length_app. simpl. lia.
Qed.

Lemma post_each_fail payloads : ∀ results w,
  sequential_ok payloads w = false →
  ∃ e, post_each payloads results w = (inr e, posts_world payloads w).
Proof.
  induction payloads as [|p ps IH]; intros results w Hok; simpl in *.
  - done.
  - destruct (postAction p w) as [[r|e] w'] eqn:Hp; eauto.
Qed.

(** C9: the purchase request is a POST to /api/shop/purchase whose body is
    the serialisation of an object holding product_id and, when the key is
    a non-empty string, idempotency_key, and nothing else. The payload's
    user_id, amount, quantity and metadata do not reach the body, and an
    empty-string key sends the same request as an absent key. *)
Theorem buyProduct_body_only_product_and_key
    (uid : Z) (pid : string) (amt : Z) (qty : option Z)
    (meta : option (list (string * js))) (key : option string) (w : World) :
  buyProduct (ShopBuyPayload.mk uid pid amt qty meta key) w =
    apiRequest "/api/shop/purchase"
      {| method := "POST";
         body := JSON_stringify (purchase_body pid (sent_key key)) |} w
  ∧ (∀ uid' amt' qty' meta',
       buyProduct (ShopBuyPayload.mk uid pid amt qty meta (Some EmptyString)) w =
       buyProduct (ShopBuyPayload.mk uid' pid amt' qty' meta' None) w)
  ∧ JSON_stringify (purchase_body pid None)
    = Some ("{" +:+ quote "product_id" +:+ ":" +:+ quote pid +:+ "}")
  ∧ (∀ k, JSON_stringify (purchase_body pid (Some k))
          = Some ("{" +:+ quote "product_id" +:+ ":" +:+ quote pid +:+ ","
                  +:+ quote "idempotency_key" +:+ ":" +:+ quote k +:+ "}")).
Proof.
  split; [|split; [|split]].
  - unfold buyProduct, purchase_body, sent_key. simpl.
    destruct key as [k|]; simpl; [|done].
    unfold js_or; simpl. destruct (decide (k = EmptyString)) as [->|Hne]; [done|].
    destruct k; [done|]. done.
  - intros. reflexivity.
  - reflexivity.
  - intros k. unfold JSON_stringify, purchase_body, serialize, join_comma, quote.
    simpl. rewrite !append_assoc. reflexivity.
Qed.

(** C10: when the bulk request is rejected with [err], the payloads are
    posted one by one, in order; if every post resolves, the result is
    [{logged: n}] with [n] the number of payloads, and if one of them is
    rejected, the batch is rejected with the bulk request's [err], not
    with the error of the post. *)
Theorem postActionsBatch_fallback
    (payloads : list ActionPayload.t) (w w1 : World) (err : Err) :
  apiRequest "/api/actions/bulk" (bulk_request payloads) w = (Rejected err, w1) →
  (sequential_ok payloads w1 = true →
     postActionsBatch payloads w
     = (Resolved (logged (length payloads)), posts_world payloads w1))
  ∧ (sequential_ok payloads w1 = false →
     postActionsBatch payloads w = (Rejected err, posts_world payloads w1)).
Proof.
  intros Hbulk. unfold postActionsBatch. rewrite Hbulk. split; intros Hseq.
  - destruct (post_each_ok payloads [] w1 Hseq) as (rs & -> & Hlen).
    simpl in Hlen. by rewrite Hlen.
  - by destruct (post_each_fail payloads [] w1 Hseq) as (e & ->).
Qed.

End WithApi.

Import ActionsExamples.

Lemma postActionsBatch_fallback_witness :
  postActionsBatch nat string flaky_api [spin 7; spin 8] 0%nat
  = (Resolved (logged 2), 3%nat)
  ∧ postActionsBatch nat string flaky_api [spin 7; spin (-1); spin 8] 0%nat
    = (Rejected "bulk unavailable", 3%nat).
Proof.
  split.
  - apply (postActionsBatch_fallback nat string flaky_api [spin 7; spin 8]
             0%nat 1%nat "bulk unavailable" eq_refl). reflexivity.
  - apply (postActionsBatch_fallback nat string flaky_api [spin 7; spin (-1); spin 8]
             0%nat 1%nat "bulk unavailable" eq_refl). reflexivity.
Defined.

End ActionsSpec.

(* ===================================================================== *)
(** ** The constraint migration *)
(* ===================================================================== *)

Module MigrationSpec.
Import Migration ListFacts.

Lemma bind_Ok {A B} (f : A → result B) (a : A) : (Ok a ≫= f) = f a.
Proof. reflexivity. Qed.

Lemma with_uniques_id t : with_uniques t (uniques t) = t.
Proof. by destruct t. Qed.

Lemma filter_names_NoDup (P : unique_constraint → Prop) `{∀ u, Decision (P u)} us :
  NoDup (map name us) → NoDup (map name (filter P us)).
Proof.
  induction us as [|u us IH]; simpl; [done|].
  rewrite NoDup_cons. intros [Hnotin Hnd].
  rewrite filter_cons. destruct (decide (P u)); simpl; [|by apply IH].
  apply NoDup_cons. split; [|by apply IH].
  intros Hin. apply Hnotin.
  apply list_elem_of_fmap in Hin as (u' & -> & Hu').
  apply list_elem_of_fmap. exists u'. split; [done|].
  by apply list_elem_of_filter in Hu' as [_ ?].
Qed.

(** Dropping a list of distinct, existing constraint names removes exactly
    the constraints so named. *)
Lemma drop_each_ok tbl : ∀ ns db t,
  db !! tbl = Some t →
  NoDup ns →
  (∀ n, n ∈ ns → n ∈ map name (uniques t)) →
  drop_each ns tbl db =
    Ok (<[tbl := with_uniques t (filter (λ u, name u ∉ ns) (uniques t))]> db).
Proof.
  induction ns as [|n ns IH]; intros db t Ht Hnd Hsub; simpl.
  - f_equal. rewrite filter_all.
    + rewrite with_uniques_id. by rewrite insert_id.
    + intros u _. apply not_elem_of_nil.
  - unfold drop_constraint. rewrite Ht.
    rewrite bool_decide_eq_true_2 by (apply Hsub; left).
    change (mbind ?f (Ok ?a)) with (f a).
    apply NoDup_cons in Hnd as [Hn Hnd].
    rewrite (IH _ (with_uniques t (filter (λ u, name u ≠ n) (uniques t)))).
    + rewrite insert_insert_eq. do 2 f_equal. unfold with_uniques; simpl. f_equal.
      rewrite list_filter_filter. apply list_filter_iff.
      intros u. rewrite not_elem_of_cons. tauto.
    + by rewrite lookup_insert_eq.
    + done.
    + intros n' Hn'. simpl.
      pose proof (Hsub n' (list_elem_of_further _ _ _ Hn')) as Hin.
      apply list_elem_of_fmap in Hin as (u & -> & Hu).
      apply list_elem_of_fmap. exists u. split; [done|].
      apply list_elem_of_filter. split; [|done].
      intros Heq. apply Hn. by rewrite <- Heq.
Qed.

(** With unique names, a constraint is named by [drop_names] exactly when
    its columns are one of the [singles]. *)
Lemma name_in_drop_names singles us u :
  NoDup (map name us) → u ∈ us →
  name u ∈ drop_names singles us ↔ column_names u ∈ singles.
Proof.
  intros Hnd Hu. unfold drop_names. split.
  - intros Hin. apply list_elem_of_fmap in Hin as (u' & Heq & Hu').
    apply list_elem_of_filter in Hu' as [HP Hu'].
    assert (u = u') as ->; [|done].
    clear HP. induction us as [|v us IH]; [by apply elem_of_nil in Hu|].
    simpl in Hnd. apply NoDup_cons in Hnd as [Hv Hnd].
    apply elem_of_cons in Hu as [->|Hu]; apply elem_of_cons in Hu' as [->|Hu'].
    + done.
    + exfalso. apply Hv. rewrite Heq. apply list_elem_of_fmap. eauto.
    + exfalso. apply Hv. rewrite <- Heq. apply list_elem_of_fmap. eauto.
    + by apply IH.
  - intros HP. apply list_elem_of_fmap. exists u. split; [done|].
    by apply list_elem_of_filter.
Qed.

Lemma cleanup_uniques_ok tbl singles db t :
  db !! tbl = Some t →
  names_unique t →
  cleanup_uniques tbl singles db =
    Ok (<[tbl := with_uniques t (filter (λ u, column_names u ∉ singles) (uniques t))]> db).
Proof.
  intros Ht Hnd. unfold cleanup_uniques. rewrite Ht.
  rewrite (drop_each_ok tbl _ db t Ht).
  - do 3 f_equal. apply filter_ext_in. intros u Hu.
    by rewrite (name_in_drop_names singles (uniques t) u Hnd Hu).
  - unfold drop_names. by apply filter_names_NoDup.
  - intros n Hn. unfold drop_names in Hn.
    apply list_elem_of_fmap in Hn as (u & -> & Hu).
    apply list_elem_of_filter in Hu as [_ Hu].
    apply list_elem_of_fmap. eauto.
Qed.


Lemma cleanup_uniques_spec tbl singles db :
  schema_ok db →
  ∃ db', cleanup_uniques tbl singles db = Ok db'
    ∧ schema_ok db'
    ∧ (∀ x, x ≠ tbl → db' !! x = db !! x)
    ∧ db' !! tbl =
        (λ t, with_uniques t (filter (λ u, column_names u ∉ singles) (uniques t)))
          <$> db !! tbl.
Proof.
  intros Hok. destruct (db !! tbl) as [t|] eqn:Ht.
  - pose proof (Hok tbl t Ht) as Hnd. simpl in Hnd.
    eexists. split; [by apply cleanup_uniques_ok|]. split; [|split].
    + apply map_Forall_insert_2; [|done].
      unfold names_unique, with_uniques; simpl. by apply filter_names_NoDup.
    + intros x Hx. by rewrite lookup_insert_ne.
    + by rewrite lookup_insert_eq.
  - exists db. unfold cleanup_uniques. rewrite Ht. by repeat split.
Qed.

Lemma find_column_Some col cols c :
  find_column col cols = Some c → col_name c = col ∧ col ∈ map col_name cols.
Proof.
  unfold find_column. intros Hf. apply find_some in Hf as [Hin Hname].
  apply bool_decide_eq_true in Hname. split; [done|].
  rewrite <- Hname. apply list_elem_of_In, in_map, Hin.
Qed.

Lemma forallb_filter_not_null col (rs : list row) :
  forallb (λ r, negb (is_null r col)) (filter (λ r, is_null r col = false) rs) = true.
Proof.
  apply forallb_forall. intros r Hr.
  apply list_elem_of_In, list_elem_of_filter in Hr as [Hr _]. by rewrite Hr.
Qed.

(** The game_stats step never raises: the rows that would block SET NOT
    NULL are deleted first. *)
Lemma tighten_game_stats_spec db :
  ∃ db', tighten_game_stats db = Ok db'
    ∧ (∀ x, x ≠ "game_stats" → db' !! x = db !! x)
    ∧ db' !! "game_stats" = tightened <$> db !! "game_stats".
Proof.
  unfold tighten_game_stats, tightened.
  destruct (db !! "game_stats") as [t|] eqn:Ht; [|by exists db].
  simpl.
  destruct (find_column "user_id" (columns t)) as [c|] eqn:Hc;
    [|by exists db].
  destruct (default true (nullable c)) eqn:Hn; [|by exists db].
  apply find_column_Some in Hc as [_ Hin].
  unfold delete_where_null. rewrite Ht, bind_Ok.
  unfold alter_column_not_null. rewrite lookup_insert_eq. simpl.
  rewrite bool_decide_eq_true_2 by done.
  rewrite forallb_filter_not_null, insert_insert_eq.
  eexists. split; [done|]. split.
  - intros x Hx. by rewrite lookup_insert_ne.
  - by rewrite lookup_insert_eq.
Qed.

(** The whole revision on a well-formed schema: it is applied, and each
    table is left as its own step leaves it. *)
Lemma upgrade_spec db :
  schema_ok db →
  ∃ db', upgrade db = Ok db'
    ∧ db' !! "shop_transactions" =
        (λ t, with_uniques t
                (filter (λ u, column_names u ∉ [["user_id"]; ["product_id"]]) (uniques t)))
          <$> db !! "shop_transactions"
    ∧ db' !! "game_stats" = tightened <$> db !! "game_stats".
Proof.
  intros Hok. unfold upgrade.
  destruct (cleanup_uniques_spec "shop_transactions" [["user_id"]; ["product_id"]] db Hok)
    as (db1 & -> & Hok1 & Hframe1 & Hshop).
  destruct (cleanup_uniques_spec "follow_relations" [["user_id"]; ["target_user_id"]] db1 Hok1)
    as (db2 & E2 & Hok2 & Hframe2 & _).
  destruct (cleanup_uniques_spec "event_mission_links"
              [["event_id"]; ["mission_template_id"]] db2 Hok2)
    as (db3 & E3 & Hok3 & Hframe3 & _).
  destruct (tighten_game_stats_spec db3) as (db4 & E4 & Hframe4 & Hgs).
  rewrite bind_Ok, E2, bind_Ok, E3, bind_Ok, E4.
  exists db4. split; [done|]. split.
  - rewrite Hframe4, Hframe3, Hframe2 by done. done.
  - rewrite Hgs, Hframe3, Hframe2, Hframe1 by done. done.
Qed.


Lemma find_column_set_not_null col cols :
  find_column col (map (set_not_null col) cols) = set_not_null col <$> find_column col cols.
Proof.
  assert (∀ c, col_name (set_not_null col c) = col_name c) as Hname.
  { intros c. unfold set_not_null. by destruct (bool_decide _). }
  unfold find_column. induction cols as [|c cols IH]; [done|]. simpl.
  rewrite Hname. by destruct (bool_decide (col_name c = col)).
Qed.

Lemma collides_differ (u : unique_constraint) (r r' : row) (c : string) :
  c ∈ column_names u → cell r c ≠ cell r' c → collides u r r' = false.
Proof.
  intros Hc Hne. unfold collides, key_of.
  destruct (forallb _ (column_names u)); [|done].
  destruct (forallb _ (column_names u)); [|done].
  apply bool_decide_eq_false. intros Heq. apply Hne.
  assert (∀ cs, map (cell r) cs = map (cell r') cs → c ∈ cs → cell r c = cell r' c) as Hmap.
  { induction cs as [|c' cs IH]; simpl; intros Hm Hin; [by apply elem_of_nil in Hin|].
    injection Hm as Hhd Htl. apply elem_of_cons in Hin as [->|Hin]; auto. }
  apply (Hmap (column_names u)); [congruence | done].
Qed.

Lemma violates_unique_fresh (t : table) (r : row) (c : string) :
  (∀ u, u ∈ uniques t → c ∈ column_names u) →
  (∀ r', r' ∈ rows t → cell r' c ≠ cell r c) →
  violates_unique t r = false.
Proof.
  intros Hcols Hfresh. unfold violates_unique.
  apply not_true_is_false. intros Hex.
  apply existsb_exists in Hex as (u & Hu & Hex).
  apply existsb_exists in Hex as (r' & Hr' & Hcol).
  apply list_elem_of_In in Hu, Hr'.
  rewrite (collides_differ u r r' c) in Hcol; [done | by apply Hcols |].
  intros Heq. by apply (Hfresh r' Hr').
Qed.

(** C2: on a well-formed schema the revision is applied and leaves on
    shop_transactions no unique constraint over user_id alone or product_id
    alone, while every other unique constraint, the composite
    (user_id, product_id, idempotency_key) included, is kept and still
    refuses a second row with the same triple. When the constraints other
    than the two single-column ones all cover idempotency_key, two rows
    whose idempotency keys differ from each other and from the stored ones
    are both inserted, whatever their users and products. *)
Theorem shop_transactions_composite_only (db : database) (t : table) :
  schema_ok db →
  db !! "shop_transactions" = Some t →
  ∃ db' t',
    upgrade db = Ok db'
    ∧ db' !! "shop_transactions" = Some t'
    ∧ columns t' = columns t ∧ rows t' = rows t
    ∧ (∀ u, u ∈ uniques t' →
         ¬ single_column "user_id" u ∧ ¬ single_column "product_id" u)
    ∧ (∀ u, u ∈ uniques t →
         ¬ single_column "user_id" u → ¬ single_column "product_id" u →
         u ∈ uniques t')
    ∧ ((∃ u, u ∈ uniques t ∧ column_names u = composite_key) →
       ∀ r r', r' ∈ rows t' →
         is_Some (key_of composite_key r) →
         key_of composite_key r = key_of composite_key r' →
         ∃ msg, insert_row "shop_transactions" r db' = Raise msg)
    ∧ ((∀ u, u ∈ uniques t →
          single_column "user_id" u ∨ single_column "product_id" u
          ∨ "idempotency_key" ∈ column_names u) →
       ∀ r1 r2,
         violates_not_null t' r1 = false →
         violates_not_null t' r2 = false →
         cell r1 "idempotency_key" ≠ cell r2 "idempotency_key" →
         (∀ r, r ∈ rows t' →
            cell r "idempotency_key" ≠ cell r1 "idempotency_key"
            ∧ cell r "idempotency_key" ≠ cell r2 "idempotency_key") →
         ∃ db1 db2,
           insert_row "shop_transactions" r1 db' = Ok db1
           ∧ insert_row "shop_transactions" r2 db1 = Ok db2).
Proof.
  intros Hok Ht.
  destruct (upgrade_spec db Hok) as (db' & Hup & Hshop & _).
  rewrite Ht in Hshop. simpl in Hshop.
  eexists db', _. split; [done|]. split; [exact Hshop|].
  split; [done|]. split; [done|].
  assert (∀ u, u ∈ filter (λ u, column_names u ∉ [["user_id"]; ["product_id"]]) (uniques t)
            ↔ u ∈ uniques t ∧ ¬ single_column "user_id" u ∧ ¬ single_column "product_id" u)
    as Hkept.
  { intros u. rewrite list_elem_of_filter. unfold single_column.
    rewrite !not_elem_of_cons. split.
    - intros [(? & ? & _) ?]. done.
    - intros (? & ? & ?). repeat split; try done. apply not_elem_of_nil. }
  simpl. split; [|split; [|split]].
  - intros u Hu. apply Hkept in Hu. tauto.
  - intros u Hu H1 H2. apply Hkept. tauto.
  - intros (u & Hu & Hcols) r r' Hr' [k Hk] Hsame.
    unfold insert_row. rewrite Hshop.
    destruct (violates_not_null _ r); [by eexists|].
    assert (violates_unique
              (with_uniques t
                 (filter (λ u, column_names u ∉ [["user_id"]; ["product_id"]]) (uniques t)))
              r = true) as ->; [|by eexists].
    unfold violates_unique. apply existsb_exists. exists u. split.
    + apply list_elem_of_In. simpl. apply Hkept. unfold single_column.
      rewrite Hcols. by repeat split.
    + apply existsb_exists. exists r'. split; [by apply list_elem_of_In|].
      unfold collides. rewrite Hcols, <- Hsame, Hk. by apply bool_decide_eq_true.
  - intros Hall r1 r2 Hnn1 Hnn2 Hdiff Hfresh.
    assert (∀ u, u ∈ filter (λ u, column_names u ∉ [["user_id"]; ["product_id"]]) (uniques t)
              → "idempotency_key" ∈ column_names u) as Hidem.
    { intros u Hu. apply Hkept in Hu as (Hu & H1 & H2).
      destruct (Hall u Hu) as [?|[?|?]]; done. }
    unfold insert_row at 1. rewrite Hshop, Hnn1.
    rewrite (violates_unique_fresh _ r1 "idempotency_key"); [|done|by intros r Hr; apply Hfresh].
    eexists _, _. split; [done|].
    unfold insert_row. rewrite lookup_insert_eq.
    change (violates_not_null _ r2) with
      (violates_not_null
         (with_uniques t
            (filter (λ u, column_names u ∉ [["user_id"]; ["product_id"]]) (uniques t))) r2).
    rewrite Hnn2.
    rewrite (violates_unique_fresh _ r2 "idempotency_key"); [done|done|].
    simpl. intros r Hr. apply elem_of_app in Hr as [Hr|Hr].
    + by apply Hfresh.
    + apply list_elem_of_singleton in Hr as ->. done.
Qed.


Import MigrationExamples.

Lemma schema_ok_db_before : schema_ok db_before.
Proof. apply (bool_decide_unpack (schema_ok db_before)). vm_compute. exact I. Defined.

Lemma shop_transactions_composite_only_witness :
  ∃ db' db1 db2,
    upgrade db_before = Ok db'
    ∧ insert_row "shop_transactions" (purchase_row 7 "gems_100" "key-1") db' = Ok db1
    ∧ insert_row "shop_transactions" (purchase_row 7 "gems_500" "key-2") db1 = Ok db2.
Proof.
  destruct (shop_transactions_composite_only db_before shop_transactions_before
              schema_ok_db_before eq_refl)
    as (db' & t' & Hup & Ht' & Hcols & Hrows & _ & _ & _ & Hins).
  destruct (Hins) with (r1 := purchase_row 7 "gems_100" "key-1")
                       (r2 := purchase_row 7 "gems_500" "key-2")
    as (db1 & db2 & H1 & H2).
  - intros u Hu. simpl in Hu.
    repeat (apply elem_of_cons in Hu as [->|Hu]).
    + left. reflexivity.
    + right. left. reflexivity.
    + right. right. simpl. set_solver.
    + by apply elem_of_nil in Hu.
  - unfold violates_not_null. rewrite Hcols. vm_compute. reflexivity.
  - unfold violates_not_null. rewrite Hcols. vm_compute. reflexivity.
  - vm_compute. discriminate.
  - rewrite Hrows. intros r Hr. by apply elem_of_nil in Hr.
  - exists db', db1, db2. by repeat split.
Defined.

(** Before the revision the single-column constraints refuse the second
    purchase of the same user. *)
Example second_purchase_blocked_before :
  (insert_row "shop_transactions" (purchase_row 7 "gems_100" "key-1") db_before
     ≫= insert_row "shop_transactions" (purchase_row 7 "gems_500" "key-2"))
  = Raise "duplicate key value violates unique constraint".
Proof. vm_compute. reflexivity. Qed.

(** After the revision only the composite constraint is left. *)
Example upgrade_keeps_composite_only :
  match upgrade db_before with
  | Ok db' => map name ∘ uniques <$> db' !! "shop_transactions"
  | Raise _ => None
  end = Some ["uq_shop_tx_user_product_idem"].
Proof. vm_compute. reflexivity. Qed.

(** C7, as stated, fails: with game_stats rows that have no user, the
    revision is applied, not aborted, and the rows are deleted rather than
    left in place. *)
Lemma upgrade_does_not_abort_on_null_rows :
  has_null_rows "game_stats" "user_id" db_before = true
  ∧ column_not_null "game_stats" "user_id" db_before = false
  ∧ (¬ ∃ msg, run_upgrade db_before = (db_before, Aborted msg))
  ∧ ∃ db', run_upgrade db_before = (db', Applied)
      ∧ column_not_null "game_stats" "user_id" db' = true
      ∧ (length ∘ rows) <$> db_before !! "game_stats" = Some 3%nat
      ∧ (length ∘ rows) <$> db' !! "game_stats" = Some 1%nat.
Proof.
  split; [by vm_compute|]. split; [by vm_compute|]. split.
  - intros [msg Hrun]. vm_compute in Hrun. discriminate.
  - eexists. split; [vm_compute; reflexivity|]. by vm_compute.
Qed.

(** C7, amended: on a well-formed schema whose game_stats table has a
    nullable user_id column, the revision is applied; it deletes the rows
    whose user_id is NULL, keeps the others in order, and then sets the
    column NOT NULL, so the constraint is applied to a table without
    violating rows. *)
Theorem upgrade_deletes_null_rows_then_sets_not_null
    (db : database) (t : table) (c : column) :
  schema_ok db →
  db !! "game_stats" = Some t →
  find_column "user_id" (columns t) = Some c →
  default true (nullable c) = true →
  ∃ db' t',
    run_upgrade db = (db', Applied)
    ∧ db' !! "game_stats" = Some t'
    ∧ rows t' = filter (λ r, is_null r "user_id" = false) (rows t)
    ∧ has_null_rows "game_stats" "user_id" db' = false
    ∧ column_not_null "game_stats" "user_id" db' = true.
Proof.
  intros Hok Ht Hc Hn.
  destruct (upgrade_spec db Hok) as (db' & Hup & _ & Hgs).
  rewrite Ht in Hgs. simpl in Hgs. unfold tightened in Hgs. rewrite Hc, Hn in Hgs.
  eexists db', _. unfold run_upgrade. rewrite Hup.
  split; [done|]. split; [exact Hgs|]. split; [done|]. split.
  - unfold has_null_rows. rewrite Hgs. simpl.
    apply not_true_is_false. intros Hex.
    apply existsb_exists in Hex as (r & Hr & Hnull).
    apply list_elem_of_In, list_elem_of_filter in Hr as [Hr _]. congruence.
  - unfold column_not_null. rewrite Hgs. simpl.
    rewrite find_column_set_not_null, Hc. simpl.
    apply find_column_Some in Hc as [Hname _].
    unfold set_not_null. by rewrite bool_decide_eq_true_2.
Qed.

Lemma upgrade_deletes_null_rows_then_sets_not_null_witness :
  ∃ db' t',
    run_upgrade db_before = (db', Applied)
    ∧ db' !! "game_stats" = Some t'
    ∧ rows t' = filter (λ r, is_null r "user_id" = false) (rows game_stats_before)
    ∧ has_null_rows "game_stats" "user_id" db' = false
    ∧ column_not_null "game_stats" "user_id" db' = true.
Proof.
  apply (upgrade_deletes_null_rows_then_sets_not_null db_before game_stats_before
           {| col_name := "user_id"; nullable := Some true |}
           schema_ok_db_before eq_refl eq_refl eq_refl).
Defined.

End MigrationSpec.

(* ===================================================================== *)
(** ** The purchase ledger *)
(* ===================================================================== *)

Module LedgerSpec.
Import Ledger ListFacts.

Lemma find_record_Some u p k rs r :
  find_record u p k rs = Some r → r ∈ rs ∧ record_key r = (u, p, k).
Proof.
  unfold find_record. intros Hf. apply find_some in Hf as [Hin Hk].
  split; [by apply list_elem_of_In | by apply bool_decide_eq_true in Hk].
Qed.

Lemma find_record_None u p k rs :
  find_record u p k rs = None ↔ ∀ r, r ∈ rs → record_key r ≠ (u, p, k).
Proof.
  unfold find_record. split.
  - intros Hf r Hr Hk. apply list_elem_of_In in Hr.
    pose proof (find_none _ _ Hf r Hr) as Hb. simpl in Hb.
    by apply bool_decide_eq_false in Hb.
  - intros Hall. induction rs as [|r rs IH]; [done|]. simpl.
    rewrite bool_decide_eq_false_2 by (apply Hall; left).
    apply IH. intros r' Hr'. apply Hall. by right.
Qed.

Lemma find_record_app u p k rs rs' :
  find_record u p k (rs ++ rs') =
    match find_record u p k rs with
    | Some r => Some r
    | None => find_record u p k rs'
    end.
Proof.
  unfold find_record. induction rs as [|r rs IH]; [done|]. simpl.
  by destruct (bool_decide (record_key r = (u, p, k))).
Qed.

Lemma find_record_commit u p k price s :
  find_record u p k (records s) = None →
  find_record u p k (records (commit u p k price s)) = Some (new_record u p k price s).
Proof.
  intros Hnone. simpl. rewrite find_record_app, Hnone. simpl.
  by rewrite bool_decide_eq_true_2.
Qed.


(** *** The invariant *)

Lemma ledger_ok_init bal : ledger_ok (init bal).
Proof.
  unfold ledger_ok, init; simpl. split; [constructor|]. split; [done|]. constructor.
Qed.

Lemma ledger_ok_commit u p k price s :
  ledger_ok s →
  find_record u p k (records s) = None →
  server_key_below (next_key s) (new_record u p k price s) →
  ledger_ok (commit u p k price s).
Proof.
  intros (Hnd & Hch & Hsrv) Hnone Hk. unfold ledger_ok; simpl.
  split; [|split].
  - rewrite map_app. simpl. apply NoDup_app. split; [done|]. split.
    + intros key Hin Hnew. apply list_elem_of_singleton in Hnew as ->.
      apply list_elem_of_fmap in Hin as (r & Hr & Hin).
      by apply (proj1 (find_record_None u p k (records s)) Hnone r).
    + apply NoDup_singleton.
  - rewrite map_app, Hch. done.
  - apply Forall_app. split; [done|]. by apply Forall_singleton.
Qed.

Lemma ledger_ok_take_server_key s : ledger_ok s → ledger_ok (take_server_key s).
Proof.
  intros (Hnd & Hch & Hsrv). unfold ledger_ok; simpl. repeat split; try done.
  eapply Forall_impl; [exact Hsrv|]. intros r. unfold server_key_below.
  destruct (idempotency_key r); [done | lia].
Qed.

Lemma server_key_fresh s u p :
  ledger_ok s → find_record u p (ServerKey (next_key s)) (records s) = None.
Proof.
  intros (_ & _ & Hsrv). apply find_record_None. intros r Hr Hk.
  unfold record_key in Hk. injection Hk as _ _ Hk.
  rewrite Forall_forall in Hsrv. specialize (Hsrv r Hr).
  unfold server_key_below in Hsrv. rewrite Hk in Hsrv. lia.
Qed.

Lemma purchase_with_key_ok cat u p k s res s' :
  ledger_ok s →
  match k with ServerKey n => (n < next_key s)%nat | ClientKey _ => True end →
  purchase_with_key cat u p k s = (res, s') →
  ledger_ok s'.
Proof.
  intros Hok Hk. unfold purchase_with_key, insert_and_charge.
  destruct (find_record u p k (records s)) as [r|] eqn:Hf.
  - by intros [= <- <-].
  - destruct (cat !! p) as [price|]; [|by intros [= <- <-]].
    destruct (balance s u <? price); intros [= <- <-]; [done|].
    by apply ledger_ok_commit.
Qed.

(** Every purchase keeps the ledger invariant. *)
Lemma purchase_ok cat u p key s res s' :
  ledger_ok s → purchase cat u p key s = (res, s') → ledger_ok s'.
Proof.
  intros Hok. unfold purchase. destruct key as [ck|].
  - destruct (find_record u p (ClientKey ck) (records s)); [by intros [= <- <-]|].
    by apply purchase_with_key_ok.
  - apply purchase_with_key_ok; [by apply ledger_ok_take_server_key|].
    simpl. lia.
Qed.

Lemma record_count_le_1 u p k s : ledger_ok s → (record_count u p k s ≤ 1)%nat.
Proof. intros (Hnd & _). unfold record_count. by apply count_le_1. Qed.

Lemma charge_count_record_count u p k s :
  ledger_ok s → charge_count u p k s = record_count u p k s.
Proof.
  intros (_ & Hch & _). unfold charge_count, record_count. rewrite Hch.
  rewrite filter_map_comm, length_map. done.
Qed.

Lemma record_count_found u p k s r :
  ledger_ok s → find_record u p k (records s) = Some r → record_count u p k s = 1%nat.
Proof.
  intros Hok Hf. apply find_record_Some in Hf as [Hin Hk].
  pose proof (record_count_le_1 u p k s Hok).
  pose proof (count_ge_1 record_key (u, p, k) (records s) r Hin Hk).
  unfold record_count in *. lia.
Qed.

(** What a purchase under a client key answers, in terms of the ledger it
    leaves. *)
Lemma purchase_result cat u p ck s res s' :
  purchase cat u p (Some ck) s = (res, s') →
  match res with
  | Purchased r => find_record u p (ClientKey ck) (records s') = Some r
  | _ => find_record u p (ClientKey ck) (records s') = None ∧ s' = s
  end.
Proof.
  unfold purchase, purchase_with_key, insert_and_charge.
  destruct (find_record u p (ClientKey ck) (records s)) as [r|] eqn:Hf.
  - by intros [= <- <-].
  - destruct (cat !! p) as [price|]; [|by intros [= <- <-]].
    destruct (balance s u <? price); intros [= <- <-]; [done|].
    by apply find_record_commit.
Qed.

(** Asking again leaves the ledger alone and answers the same. *)
Lemma purchase_again cat u p ck s res s' :
  purchase cat u p (Some ck) s = (res, s') →
  purchase cat u p (Some ck) s' = (res, s').
Proof.
  intros Hp. pose proof (purchase_result _ _ _ _ _ _ _ Hp) as Hres.
  destruct res as [r| |].
  - unfold purchase. by rewrite Hres.
  - destruct Hres as [_ ->]. done.
  - destruct Hres as [_ ->]. done.
Qed.

(** C1: a second purchase with the same (user_id, product_id,
    idempotency_key) answers what the first answered and leaves the state
    the first left: balances, charges, grants and records are untouched.
    The key has at most one charge, and exactly one charge and one record
    once the purchase has gone through. *)
Theorem purchase_idempotent
    (cat : catalog) (u : Z) (p : string) (k : string)
    (s s1 : state) (res : PurchaseResult) :
  ledger_ok s →
  purchase cat u p (Some k) s = (res, s1) →
  purchase cat u p (Some k) s1 = (res, s1)
  ∧ ledger_ok s1
  ∧ (charge_count u p (ClientKey k) s1 ≤ 1)%nat
  ∧ (∀ r, res = Purchased r →
       find_record u p (ClientKey k) (records s1) = Some r
       ∧ record_count u p (ClientKey k) s1 = 1%nat
       ∧ charge_count u p (ClientKey k) s1 = 1%nat)
  ∧ (res = InsufficientFunds ∨ res = ProductNotFound → s1 = s).
Proof.
  intros Hok Hp.
  pose proof (purchase_ok _ _ _ _ _ _ _ Hok Hp) as Hok1.
  pose proof (purchase_result _ _ _ _ _ _ _ Hp) as Hres.
  split; [by apply (purchase_again cat u p k s)|]. split; [done|]. split; [|split].
  - rewrite charge_count_record_count by done. by apply record_count_le_1.
  - intros r ->. split; [done|].
    rewrite charge_count_record_count by done.
    split; by apply (record_count_found _ _ _ _ r).
  - intros [-> | ->]; by destruct Hres.
Qed.


Import LedgerExamples.

Lemma ledger_ok_wallet : ledger_ok wallet.
Proof. apply (bool_decide_unpack (ledger_ok wallet)). vm_compute. exact I. Defined.

Lemma purchase_idempotent_witness :
  let res := (purchase shop 7 "gems_100" (Some "key-1") wallet).1 in
  let s1 := (purchase shop 7 "gems_100" (Some "key-1") wallet).2 in
  purchase shop 7 "gems_100" (Some "key-1") s1 = (res, s1)
  ∧ charge_count 7 "gems_100" (ClientKey "key-1") s1 = 1%nat
  ∧ balance s1 7 = 150.
Proof.
  destruct (purchase_idempotent shop 7 "gems_100" "key-1" wallet
              (purchase shop 7 "gems_100" (Some "key-1") wallet).2
              (purchase shop 7 "gems_100" (Some "key-1") wallet).1
              ledger_ok_wallet eq_refl)
    as (Hagain & _ & _ & Hone & _).
  split; [exact Hagain|]. split; [|reflexivity].
  by destruct (Hone _ eq_refl) as (_ & _ & ?).
Defined.

Example purchase_insufficient_funds :
  purchase shop 7 "gems_100" (Some "key-1") (init {[ 7 := 50 ]})
  = (InsufficientFunds, init {[ 7 := 50 ]}).
Proof. reflexivity. Qed.

Example purchase_unknown_product :
  purchase shop 7 "gems_999" (Some "key-1") wallet = (ProductNotFound, wallet).
Proof. reflexivity. Qed.

(** Without a key every call is a new purchase. *)
Example purchase_without_key_twice :
  let s1 := (purchase shop 7 "gems_100" None wallet).2 in
  let s2 := (purchase shop 7 "gems_100" None s1).2 in
  map charged_key (charges s2) = [ServerKey 0; ServerKey 1] ∧ balance s2 7 = 50.
Proof. split; reflexivity. Qed.

(** *** Duplicate requests served concurrently *)

Section Duplicates.
Variable cat : catalog.
Variables (u : Z) (p : string) (ck : string).
Variables (s0 s1 : state) (res1 : PurchaseResult).
Hypothesis Hserve : purchase cat u p (Some ck) s0 = (res1, s1).










End Duplicates.





End LedgerSpec.


(* ===================================================================== *)
(** ** Game statistics *)
(* ===================================================================== *)

Module StatsSpec.
Import Stats Stats.GameStatDetail ListFacts.

(** *** The game_stats table under events *)

Lemma is_for_true u g d : is_for u g d = true ↔ detail_key d = (u, g).
Proof.
  unfold is_for, detail_key. rewrite bool_decide_eq_true. split.
  - by intros [-> ->].
  - by intros [= -> ->].
Qed.

Lemma lookup_detail_Some rows u g d :
  lookup_detail rows u g = Some d → d ∈ rows ∧ detail_key d = (u, g).
Proof.
  unfold lookup_detail. intros Hf. apply find_some in Hf as [Hin Hk].
  split; [by apply list_elem_of_In | by apply is_for_true].
Qed.

Lemma lookup_detail_None rows u g :
  lookup_detail rows u g = None ↔ (u, g) ∉ map detail_key rows.
Proof.
  unfold lookup_detail. induction rows as [|d rows IH]; simpl.
  - split; [intros _; apply not_elem_of_nil | done].
  - rewrite not_elem_of_cons. destruct (is_for u g d) eqn:Hd.
    + apply is_for_true in Hd. split; [done|]. intros [Hne _]. by rewrite Hd in Hne.
    + rewrite IH. split; [|tauto]. intros Hnot. split; [|done].
      intros Heq. symmetry in Heq. apply is_for_true in Heq. congruence.
Qed.

Lemma bump_key e d : detail_key (bump e d) = detail_key d.
Proof. unfold bump. by destruct (ev_won e). Qed.

Lemma bump_ok e d : detail_ok d → detail_ok (bump e d).
Proof.
  unfold detail_ok, bump. intros (Ht & Hw & Hl & Hm).
  destruct (ev_won e); simpl; repeat split; lia.
Qed.

Lemma zero_detail_ok u g : detail_ok (zero_detail u g).
Proof. unfold detail_ok, zero_detail; simpl. lia. Qed.

Lemma apply_event_ok e rows : rows_ok rows → rows_ok (apply_event e rows).
Proof.
  intros [Hnd Hall]. unfold apply_event.
  destruct (lookup_detail rows (ev_user e) (ev_game e)) as [d|] eqn:Hl.
  - split.
    + rewrite map_map.
      erewrite map_ext; [exact Hnd|].
      intros d'. simpl. destruct (is_for _ _ d'); [apply bump_key | done].
    + apply Forall_map. eapply Forall_impl; [exact Hall|].
      intros d' Hd'. simpl. destruct (is_for _ _ d'); [by apply bump_ok | done].
  - split.
    + rewrite map_app. simpl. apply NoDup_app. split; [done|]. split.
      * intros k Hk Hnew. apply list_elem_of_singleton in Hnew as ->.
        rewrite bump_key in Hk. by apply lookup_detail_None in Hl.
      * apply NoDup_singleton.
    + apply Forall_app. split; [done|]. apply Forall_singleton.
      apply bump_ok, zero_detail_ok.
Qed.

Lemma resolve_all_ok evs : ∀ rows, rows_ok rows → rows_ok (resolve_all evs rows).
Proof.
  unfold resolve_all. induction evs as [|e evs IH]; intros rows Hok; [done|].
  simpl. by apply IH, apply_event_ok.
Qed.

Lemma rows_ok_nil : rows_ok [].
Proof. split; constructor. Qed.


(** *** Folding over the records of a user and over the details *)

Lemma pick_cons d rows u g :
  pick (d :: rows) u g = if is_for u g d then d else pick rows u g.
Proof. unfold pick, lookup_detail. simpl. by destruct (is_for u g d). Qed.

Lemma all_game_types g : g ∈ game_types.
Proof. unfold game_types. destruct g; set_solver. Qed.

Lemma NoDup_game_types : NoDup game_types.
Proof. by apply (bool_decide_unpack (NoDup game_types)). Qed.

Section Folds.
Variable op : Z → Z → Z.
Variable f : Detail → Z.
Hypothesis op_lcomm : ∀ x y z, op x (op y z) = op y (op x z).
Hypothesis op_zero : ∀ l : list Detail, op 0 (foldZ op f l) = foldZ op f l.
Hypothesis f_zero : ∀ u g, f (zero_detail u g) = 0.

Lemma foldZ_cons d l : foldZ op f (d :: l) = op (f d) (foldZ op f l).
Proof. reflexivity. Qed.

Lemma fold_pick_other d rows u gs :
  user_id d ≠ u →
  map (pick (d :: rows) u) gs = map (pick rows u) gs.
Proof.
  intros Hne. apply map_ext. intros g. rewrite pick_cons.
  destruct (is_for u g d) eqn:Hd; [|done].
  apply is_for_true in Hd. injection Hd as Hu _. done.
Qed.

Lemma fold_pick_cons d rows u gs :
  NoDup gs →
  user_id d = u →
  lookup_detail rows u (game_type d) = None →
  foldZ op f (map (pick (d :: rows) u) gs) =
    op (if bool_decide (game_type d ∈ gs) then f d else 0)
       (foldZ op f (map (pick rows u) gs)).
Proof.
  intros Hnd Hu Hnone. induction gs as [|g gs IH].
  - simpl. symmetry. apply (op_zero []).
  - apply NoDup_cons in Hnd as [Hg Hnd]. specialize (IH Hnd).
    simpl map. rewrite !foldZ_cons, IH, pick_cons.
    destruct (decide (g = game_type d)) as [->|Hne].
    + assert (is_for u (game_type d) d = true) as -> by by apply is_for_true; subst u.
      rewrite (bool_decide_eq_false_2 _ Hg), bool_decide_eq_true_2 by left.
      assert (pick rows u (game_type d) = zero_detail u (game_type d)) as ->
        by (unfold pick; by rewrite Hnone).
      by rewrite f_zero, !op_zero.
    + assert (is_for u g d = false) as ->.
      { apply not_true_is_false. intros Hd. apply is_for_true in Hd.
        injection Hd as _ Hd. done. }
      rewrite op_lcomm. f_equal.
      rewrite (bool_decide_ext (game_type d ∈ g :: gs) (game_type d ∈ gs)); [done|].
      rewrite elem_of_cons. split; [intros [?|?]; [congruence | done] | by right].
Qed.

Lemma foldZ_zeros (l : list Detail) : Forall (λ d, f d = 0) l → foldZ op f l = 0.
Proof.
  induction l as [|d l IH]; intros Hall; [done|].
  apply Forall_cons in Hall as [Hd Hall].
  rewrite foldZ_cons, Hd, op_zero. by apply IH.
Qed.

(** Folding over the stored records of a user gives what folding over the
    four detail entries gives. *)
Lemma fold_user_rows rows u :
  NoDup (map detail_key rows) →
  foldZ op f (user_rows rows u) = foldZ op f (details_of rows u).
Proof.
  unfold user_rows, details_of.
  induction rows as [|d rows IH]; intros Hnd.
  - rewrite (foldZ_zeros (map (pick [] u) game_types)); [done|].
    apply Forall_map, Forall_forall. intros g _. simpl.
    unfold pick. simpl. apply f_zero.
  - simpl in Hnd. apply NoDup_cons in Hnd as [Hd Hnd]. specialize (IH Hnd).
    rewrite filter_cons. destruct (decide (user_id d = u)) as [Hu|Hu].
    + rewrite foldZ_cons, IH.
      rewrite (fold_pick_cons d rows u game_types NoDup_game_types Hu).
      * by rewrite bool_decide_eq_true_2 by apply all_game_types.
      * apply lookup_detail_None. unfold detail_key in Hd. by rewrite Hu in Hd.
    + by rewrite fold_pick_other.
Qed.

End Folds.

Lemma maxZ_nonneg {A} (f : A → Z) (l : list A) : 0 ≤ maxZ f l.
Proof. unfold maxZ, foldZ. induction l as [|x l IH]; simpl; lia. Qed.

Lemma sum_user_rows (f : Detail → Z) rows u :
  (∀ u g, f (zero_detail u g) = 0) →
  NoDup (map detail_key rows) →
  sumZ f (user_rows rows u) = sumZ f (details_of rows u).
Proof.
  intros Hz Hnd. unfold sumZ. apply fold_user_rows; try done.
  intros x y z. lia.
Qed.

Lemma max_user_rows (f : Detail → Z) rows u :
  (∀ u g, f (zero_detail u g) = 0) →
  NoDup (map detail_key rows) →
  maxZ f (user_rows rows u) = maxZ f (details_of rows u).
Proof.
  intros Hz Hnd. unfold maxZ. apply fold_user_rows; try done.
  - intros x y z. lia.
  - intros l. pose proof (maxZ_nonneg f l) as Hl. unfold maxZ in Hl. lia.
Qed.

Lemma maxZ_upper {A} (f : A → Z) (l : list A) (x : A) : x ∈ l → f x ≤ maxZ f l.
Proof.
  unfold maxZ, foldZ. induction l as [|y l IH]; intros Hx; [by apply elem_of_nil in Hx|].
  simpl. apply elem_of_cons in Hx as [->|Hx]; [lia|]. specialize (IH Hx). lia.
Qed.

Lemma maxZ_attained {A} (f : A → Z) (l : list A) :
  l ≠ [] → Forall (λ x, 0 ≤ f x) l → ∃ x, x ∈ l ∧ f x = maxZ f l.
Proof.
  induction l as [|y l IH]; intros Hne Hall; [done|].
  apply Forall_cons in Hall as [Hy Hall].
  change (maxZ f (y :: l)) with (Z.max (f y) (maxZ f l)).
  destruct l as [|z l].
  - exists y. split; [left|]. change (maxZ f []) with 0. lia.
  - destruct (IH ltac:(done) Hall) as (x & Hx & Hfx).
    destruct (Z.max_spec (f y) (maxZ f (z :: l))) as [[_ ->] | [_ ->]].
    + exists x. split; [by right | done].
    + exists y. split; [left | done].
Qed.

Lemma pick_spec rows u g :
  (lookup_detail rows u g = None ∧ pick rows u g = zero_detail u g)
  ∨ (∃ d, lookup_detail rows u g = Some d ∧ pick rows u g = d ∧ d ∈ rows
          ∧ detail_key d = (u, g)).
Proof.
  unfold pick. destruct (lookup_detail rows u g) as [d|] eqn:Hl; [right | by left].
  apply lookup_detail_Some in Hl as [Hin Hk]. by exists d.
Qed.

Lemma details_of_ok rows u : Forall detail_ok rows → Forall detail_ok (details_of rows u).
Proof.
  intros Hall. unfold details_of. apply Forall_map, Forall_forall. intros g _. simpl.
  destruct (pick_spec rows u g) as [[_ ->] | (d & _ & -> & Hin & _)].
  - apply zero_detail_ok.
  - rewrite Forall_forall in Hall. by apply Hall.
Qed.

Lemma win_rate_of_total w g :
  win_rate_of w g = Some (round_half_even (1000 * w) (Z.max 1 g)).
Proof.
  unfold win_rate_of, checked.
  destruct (Z.max 1 g =? 0) eqn:Hd; [|done]. apply Z.eqb_eq in Hd. lia.
Qed.

(** The recomputation never raises. *)
Lemma recompute_total rows u :
  recompute rows u =
    Some (GameStatAggregate.mk u
            (sumZ total (user_rows rows u))
            (sumZ wins (user_rows rows u))
            (sumZ losses (user_rows rows u))
            (round_half_even (1000 * sumZ wins (user_rows rows u))
               (Z.max 1 (sumZ total (user_rows rows u))))
            (maxZ max_win (user_rows rows u))).
Proof. unfold recompute. by rewrite win_rate_of_total. Qed.

(** On a well-formed table the recomputed aggregate agrees with the
    details of the response. *)
Lemma recompute_consistent rows u :
  rows_ok rows →
  ∃ agg, recompute rows u = Some agg
    ∧ GameStatAggregate.total_wins agg = sumZ wins (details_of rows u)
    ∧ GameStatAggregate.total_losses agg = sumZ losses (details_of rows u)
    ∧ GameStatAggregate.total_games_played agg = sumZ total (details_of rows u)
    ∧ GameStatAggregate.overall_max_win agg = maxZ max_win (details_of rows u).
Proof.
  intros [Hnd _]. eexists. split; [apply recompute_total|]. simpl.
  repeat split.
  - by apply sum_user_rows.
  - by apply sum_user_rows.
  - by apply sum_user_rows.
  - by apply max_user_rows.
Qed.

(** C3: after any sequence of game-resolution events, the recomputation
    goes through and gives an aggregate whose total_wins is the sum of the
    details' wins, whose total_games_played is the sum of their totals and
    whose overall_max_win is the largest of their max_win values; every
    detail record has total = wins + losses. *)
Theorem aggregate_consistent_after_events (evs : list GameResolved) (u : Z) :
  ∃ agg,
    recompute (resolve_all evs []) u = Some agg
    ∧ GameStatAggregate.total_wins agg = sumZ wins (details_of (resolve_all evs []) u)
    ∧ GameStatAggregate.total_games_played agg
      = sumZ total (details_of (resolve_all evs []) u)
    ∧ (∀ d, d ∈ details_of (resolve_all evs []) u →
         max_win d ≤ GameStatAggregate.overall_max_win agg)
    ∧ (∃ d, d ∈ details_of (resolve_all evs []) u
            ∧ max_win d = GameStatAggregate.overall_max_win agg)
    ∧ Forall (λ d, total d = wins d + losses d) (details_of (resolve_all evs []) u)
    ∧ Forall (λ d, total d = wins d + losses d) (resolve_all evs []).
Proof.
  pose proof (resolve_all_ok evs [] rows_ok_nil) as Hok.
  destruct (recompute_consistent _ u Hok) as (agg & Hre & Hw & _ & Hg & Hm).
  pose proof (details_of_ok _ u (proj2 Hok)) as Hds.
  exists agg. split; [done|]. split; [done|]. split; [done|].
  split; [|split; [|split]].
  - intros d Hd. rewrite Hm. by apply maxZ_upper.
  - rewrite Hm. apply maxZ_attained; [done|].
    eapply Forall_impl; [exact Hds|]. by intros d (_ & _ & _ & ?).
  - eapply Forall_impl; [exact Hds|]. by intros d (? & _).
  - eapply Forall_impl; [exact (proj2 Hok)|]. by intros d (? & _).
Qed.


(** *** The win rate *)






(** The figures of the schema note: 678 wins in 1234 games is 0.549. *)
Example win_rate_schema_example : win_rate_of 678 1234 = Some 549.
Proof. reflexivity. Qed.

Example win_rate_no_games : win_rate_of 0 0 = Some 0.
Proof. reflexivity. Qed.

(** *** The read path *)

Lemma details_of_game_types rows u : map game_type (details_of rows u) = game_types.
Proof.
  unfold details_of. rewrite map_map.
  assert (∀ g, game_type (pick rows u g) = g) as Hg.
  { intros g. destruct (pick_spec rows u g) as [[_ ->] | (d & _ & -> & _ & Hk)]; [done|].
    by injection Hk. }
  unfold game_types. simpl. by rewrite !Hg.
Qed.

Lemma pick_in_details rows u g : pick rows u g ∈ details_of rows u.
Proof.
  unfold details_of. apply list_elem_of_fmap. exists g. split; [done|].
  apply all_game_types.
Qed.

(** [getStats] always answers, whatever the table and the cache hold. *)
Lemma getStats_total u now st :
  ∃ resp st',
    getStats u now st = Some (resp, st')
    ∧ success resp = true
    ∧ details resp = details_of (rows st) u
    ∧ rows st' = rows st.
Proof.
  unfold getStats. rewrite !recompute_total.
  destruct (cache_get now u st) as [e|]; simpl;
    match goal with |- context [if ?b then _ else _] => destruct b end;
    by eexists _, _.
Qed.

(** C5: whatever the table holds, the details of the response have one
    entry per game type, in the order crash, slot, gacha, rps; a game type
    with a record shows that record, and a game type without one shows the
    zero record, with wins, losses, max_win and total all 0. *)
Theorem getStats_details_cover_all_game_types (u : Z) (now : nat) (st : state) :
  ∃ resp st',
    getStats u now st = Some (resp, st')
    ∧ map game_type (details resp) = game_types
    ∧ map (game_type_name ∘ game_type) (details resp) = ["crash"; "slot"; "gacha"; "rps"]
    ∧ ∀ g,
        match lookup_detail (rows st) u g with
        | Some d => d ∈ details resp ∧ game_type d = g
        | None =>
            GameStatDetail.mk u g 0 0 0 0 ∈ details resp
        end.
Proof.
  destruct (getStats_total u now st) as (resp & st' & Hget & _ & Hds & _).
  exists resp, st'. split; [done|]. rewrite Hds.
  split; [apply details_of_game_types|]. split.
  - rewrite <- (map_map game_type game_type_name), details_of_game_types. done.
  - intros g. pose proof (pick_in_details (rows st) u g) as Hin.
    destruct (pick_spec (rows st) u g) as [[-> Hz] | (d & -> & Hd & _ & Hk)].
    + by rewrite Hz in Hin.
    + rewrite Hd in Hin. split; [done|]. by injection Hk.
Qed.

Import StatsExamples.

(** A user with slot results only still gets crash, gacha and rps. *)
Example slot_only_details :
  details_of (resolve_all slot_only []) 7 =
    [ GameStatDetail.mk 7 Crash 0 0 0 0;
      GameStatDetail.mk 7 Slot 2 1 500 3;
      GameStatDetail.mk 7 Gacha 0 0 0 0;
      GameStatDetail.mk 7 Rps 0 0 0 0 ]
  ∧ recompute (resolve_all slot_only []) 7 = Some (GameStatAggregate.mk 7 3 2 1 667 500).
Proof. split; reflexivity. Qed.


(** C6: on a well-formed table every read answers with success, never with
    an error, and the aggregate of the answer has total_wins equal to the
    sum of the details' wins. A cached aggregate that passes the check is
    served as it is and nothing changes; one that fails it is replaced by
    the aggregate recomputed from the detail records, which is also stored
    in the cache, and one warning is logged. On a cache miss the aggregate
    is recomputed and no warning is logged. *)
Theorem drift_is_repaired_on_read (u : Z) (now : nat) (st : state) :
  rows_ok (rows st) →
  ∃ resp st',
    getStats u now st = Some (resp, st')
    ∧ success resp = true
    ∧ details resp = details_of (rows st) u
    ∧ GameStatAggregate.total_wins (aggregate resp) = sumZ wins (details resp)
    ∧ rows st' = rows st
    ∧ match cache_get now u st with
      | Some e =>
          if sumZ wins (details_of (rows st) u) =? GameStatAggregate.total_wins (cached e)
          then aggregate resp = cached e ∧ st' = st
          else recompute (rows st) u = Some (aggregate resp)
               ∧ GameStatAggregate.total_games_played (aggregate resp)
                 = sumZ total (details resp)
               ∧ GameStatAggregate.overall_max_win (aggregate resp)
                 = maxZ max_win (details resp)
               ∧ warnings st' = (warnings st ++ [drift_warning])%list
               ∧ cache st' !! u = Some {| cached := aggregate resp; stored_at := now |}
      | None =>
          recompute (rows st) u = Some (aggregate resp)
          ∧ warnings st' = warnings st
          ∧ cache st' !! u = Some {| cached := aggregate resp; stored_at := now |}
      end.
Proof.
  intros Hok.
  destruct (recompute_consistent (rows st) u Hok) as (agg & Hre & Hw & _ & Hg & Hm).
  unfold getStats. rewrite Hre.
  remember (sumZ wins (details_of (rows st) u)) as sw eqn:Hsw.
  destruct (cache_get now u st) as [e|]; simpl.
  - destruct (sw =? GameStatAggregate.total_wins (cached e)) eqn:Hcheck.
    + apply Z.eqb_eq in Hcheck. eexists _, _. split; [done|]. simpl.
      repeat split; try done. by rewrite <- Hcheck, Hsw.
    + eexists _, _. split; [done|]. simpl. repeat split; try done.
      * by rewrite Hw, Hsw.
      * by rewrite lookup_insert_eq.
  - rewrite Hw, Z.eqb_refl. eexists _, _. split; [done|]. simpl. repeat split; try done.
    + by rewrite Hw, Hsw.
    + by rewrite lookup_insert_eq.
Qed.

Lemma rows_ok_stale : rows_ok (rows stale).
Proof. apply (bool_decide_unpack (rows_ok (rows stale))). vm_compute. exact I. Defined.

Lemma drift_is_repaired_on_read_witness :
  ∃ resp st',
    getStats 7 12 stale = Some (resp, st')
    ∧ success resp = true
    ∧ aggregate resp = GameStatAggregate.mk 7 3 2 1 667 500
    ∧ warnings st' = [drift_warning].
Proof.
  destruct (drift_is_repaired_on_read 7 12 stale rows_ok_stale)
    as (resp & st' & Hget & Hsucc & _ & _ & _ & Hcase).
  vm_compute in Hcase. destruct Hcase as (Hre & _ & _ & Hwarn & _).
  exists resp, st'. repeat split; try done. by injection Hre.
Defined.

End StatsSpec.

(* ===================================================================== *)
(** ** The navigation hook *)
(* ===================================================================== *)

Module NavigationSpec.
Import Json Navigation.

Lemma handleBottomNavigation_tab screen st :
  screen ∈ bottom_tabs → handleBottomNavigation screen st = navigate screen st.
Proof.
  unfold bottom_tabs. intros Hin.
  repeat (apply elem_of_cons in Hin as [->|Hin]; [reflexivity|]).
  by apply elem_of_nil in Hin.
Qed.

Lemma handleBottomNavigation_other screen st :
  screen ∉ bottom_tabs → handleBottomNavigation screen st = st.
Proof.
  unfold bottom_tabs, handleBottomNavigation. intros Hnot.
  destruct (String.eqb_spec screen "home-dashboard") as [->|_];
    [exfalso; apply Hnot; set_solver|].
  destruct (String.eqb_spec screen "game-dashboard") as [->|_];
    [exfalso; apply Hnot; set_solver|].
  destruct (String.eqb_spec screen "shop") as [->|_];
    [exfalso; apply Hnot; set_solver|].
  destruct (String.eqb_spec screen "profile") as [->|_];
    [exfalso; apply Hnot; set_solver|].
  done.
Qed.


Lemma closes_menu_closed a st :
  closes_menu a = true →
  isSideMenuOpen (apply_action a st) = false ∧ is_toggle a = false.
Proof.
  destruct a as [screen|h| | |screen]; simpl; try done.
  intros Htab. apply bool_decide_eq_true in Htab.
  by rewrite handleBottomNavigation_tab.
Qed.

Lemma keeps_menu a st :
  closes_menu a = false → is_toggle a = false →
  isSideMenuOpen (apply_action a st) = isSideMenuOpen st.
Proof.
  destruct a as [screen|h| | |screen]; simpl; try done.
  intros Htab _. apply bool_decide_eq_false in Htab.
  by rewrite handleBottomNavigation_other.
Qed.

Lemma run_cons a acts st : run (a :: acts) st = run acts (apply_action a st).
Proof. reflexivity. Qed.

Lemma menu_after acts : ∀ st,
  isSideMenuOpen (run acts st) =
    if existsb closes_menu acts then Nat.odd (toggles_since_close acts)
    else xorb (isSideMenuOpen st) (Nat.odd (toggles_since_close acts)).
Proof.
  induction acts as [|a acts IH]; intros st.
  - simpl. by destruct (isSideMenuOpen st).
  - rewrite run_cons, IH. simpl.
    destruct (existsb closes_menu acts) eqn:Hrest.
    + by rewrite orb_true_r.
    + rewrite orb_false_r. destruct (closes_menu a) eqn:Ha.
      * destruct (closes_menu_closed a st Ha) as [-> ->]. done.
      * destruct (is_toggle a) eqn:Ht.
        -- destruct a; try done. simpl.
           rewrite Nat.odd_succ, <- Nat.negb_odd.
           by destruct (isSideMenuOpen st), (Nat.odd (toggles_since_close acts)).
        -- by rewrite (keeps_menu a st Ha Ht).
Qed.

(** X1: from the first render on, after any sequence of navigations,
    handler calls, toggles, closes and bottom-bar presses, the side menu is
    open exactly when an odd number of toggles came after the last action
    that closes it (a navigation, a handler, closeSideMenu, or a press on
    one of the four bottom tabs; a press on anything else closes nothing). *)
Theorem side_menu_open_iff_odd_toggles (window : option Window) (acts : list action) :
  isSideMenuOpen (run acts (mount window)) = Nat.odd (toggles_since_close acts).
Proof.
  rewrite menu_after. simpl. by destruct (existsb closes_menu acts).
Qed.

Lemma target_in_handlers h : target h ∈ map target handlers.
Proof. apply list_elem_of_fmap. exists h. split; [done|]. destruct h; set_solver. Qed.

Lemma step_screen a st :
  currentScreen (apply_action a st)
  ∈ currentScreen st :: (map target handlers ++ navigated [a])%list.
Proof.
  destruct a as [screen|h| | |screen]; cbn [apply_action].
  - right. apply elem_of_app. right. by left.
  - right. apply elem_of_app. left. apply target_in_handlers.
  - by left.
  - by left.
  - destruct (decide (screen ∈ bottom_tabs)) as [Hin|Hnot].
    + rewrite handleBottomNavigation_tab by done. right. apply elem_of_app. left.
      unfold bottom_tabs in Hin.
      repeat (apply elem_of_cons in Hin as [->|Hin]).
      * apply (target_in_handlers toHome).
      * apply (target_in_handlers toGames).
      * apply (target_in_handlers toShop).
      * apply (target_in_handlers toProfile).
      * by apply elem_of_nil in Hin.
    + rewrite handleBottomNavigation_other by done. by left.
Qed.

(** X2: whatever is done with the hook, the current screen is the screen
    it started on, one of the sixteen screens the handlers lead to, or a
    screen that was handed to navigate directly; toggling and closing the
    side menu and the bottom bar never introduce another screen. *)
Theorem current_screen_is_known (acts : list action) (st : nav_state) :
  currentScreen (run acts st)
  ∈ currentScreen st :: (map target handlers ++ navigated acts)%list.
Proof.
  revert st. induction acts as [|a acts IH]; intros st; [by left|].
  rewrite run_cons. specialize (IH (apply_action a st)).
  pose proof (step_screen a st) as Ha.
  assert (navigated (a :: acts) = (navigated [a] ++ navigated acts)%list) as ->.
  { unfold navigated. simpl. by destruct a. }
  apply elem_of_cons in IH as [->|IH].
  - apply elem_of_cons in Ha as [->|Ha]; [by left|]. right.
    apply elem_of_app in Ha as [Ha|Ha]; apply elem_of_app; [by left|].
    right. apply elem_of_app. by left.
  - right. apply elem_of_app in IH as [IH|IH]; apply elem_of_app; [by left|].
    right. apply elem_of_app. by right.
Qed.

(** X3: the hook starts with the side menu closed and on 'loading', unless
    window.localStorage holds a non-empty E2E_FORCE_SCREEN, which is then
    the first screen; no window, a storage that throws, a missing item and
    an empty string all give 'loading'. *)
Theorem mount_screen (window : option Window) :
  isSideMenuOpen (mount window) = false
  ∧ (window = None → currentScreen (mount window) = "loading")
  ∧ ∀ w, window = Some w →
      match getItem w "E2E_FORCE_SCREEN" with
      | GetThrows => currentScreen (mount window) = "loading"
      | GetValue None => currentScreen (mount window) = "loading"
      | GetValue (Some forced) =>
          (forced = EmptyString → currentScreen (mount window) = "loading")
          ∧ (forced ≠ EmptyString → currentScreen (mount window) = forced)
      end.
Proof.
  split; [done|]. split; [by intros ->|]. intros w ->. simpl.
  destruct (getItem w "E2E_FORCE_SCREEN") as [|[forced|]]; try done.
  split.
  - by intros ->.
  - intros Hne. simpl. destruct forced; [done|]. done.
Qed.

(** X4: a press on the bottom bar navigates, closing the side menu, when
    the screen is one of home-dashboard, game-dashboard, shop and profile,
    and then does what the handler for that screen does; for any other
    string it leaves both the screen and the side menu as they are. *)
Theorem bottom_navigation_only_tabs (screen : string) (st : nav_state) :
  (screen ∈ bottom_tabs →
     handleBottomNavigation screen st
     = {| currentScreen := screen; isSideMenuOpen := false |}
     ∧ ∀ h, target h = screen → handleBottomNavigation screen st = call h st)
  ∧ (screen ∉ bottom_tabs → handleBottomNavigation screen st = st).
Proof.
  split.
  - intros Hin. rewrite handleBottomNavigation_tab by done. split; [done|].
    by intros h <-.
  - apply handleBottomNavigation_other.
Qed.

End NavigationSpec.

(* ===================================================================== *)
(** ** The requests of [actions.ts] *)
(* ===================================================================== *)

Module ActionsTraceSpec.
Import Json Actions ActionsTrace ListFacts.

(** *** String literals read back *)

Lemma append_inv_head (a b c : string) : a +:+ b = a +:+ c → b = c.
Proof.
  induction a as [|x a IH]; [done|].
  change (String x (a +:+ b) = String x (a +:+ c) → b = c).
  intros [= Heq]. by apply IH.
Qed.

Lemma read_literal_escape_char (c : ascii) (tail : string) :
  read_literal (escape_char c +:+ tail) = prepend c (read_literal tail).
Proof. destruct c as [[] [] [] [] [] [] [] []]; reflexivity. Qed.

Lemma read_literal_escape (s rest : string) :
  read_literal (escape s +:+ dquote +:+ rest) = Some (s, rest).
Proof.
  induction s as [|c s IH]; [done|].
  change (escape (String c s)) with (escape_char c +:+ escape s).
  rewrite append_assoc, read_literal_escape_char, IH. done.
Qed.

(** What [QuoteJSONString] writes is read back as the string it was given,
    whatever follows the literal. *)
Lemma read_quoted_quote (s rest : string) :
  read_quoted (quote s +:+ rest) = Some (s, rest).
Proof.
  unfold quote. rewrite !append_assoc.
  change (read_quoted (dquote +:+ escape s +:+ dquote +:+ rest))
    with (read_literal (escape s +:+ dquote +:+ rest)).
  apply read_literal_escape.
Qed.

Lemma quote_inj (s1 s2 rest1 rest2 : string) :
  quote s1 +:+ rest1 = quote s2 +:+ rest2 → s1 = s2 ∧ rest1 = rest2.
Proof.
  intros Heq. apply (f_equal read_quoted) in Heq.
  rewrite !read_quoted_quote in Heq. by injection Heq.
Qed.

Section WithApi.
Variable World : Type.
Variable Err : Type.
Variable apiRequest : string → RequestInit → World → outcome Err * World.

Local Abbreviation Logged := (World * list request)%type.
Local Abbreviation rec := (recorded World Err apiRequest).
Local Abbreviation attempted := (attempted World Err apiRequest).

Lemma postAction_recorded p w log :
  postAction Logged Err rec p (w, log) =
    ((postAction World Err apiRequest p w).1,
     ((postAction World Err apiRequest p w).2, (log ++ [post_request p])%list)).
Proof.
  unfold postAction, recorded, post_request. simpl.
  by destruct (apiRequest _ _ w).
Qed.

Lemma post_each_recorded payloads : ∀ results w log,
  post_each Logged Err rec payloads results (w, log) =
    ((post_each World Err apiRequest payloads results w).1,
     ((post_each World Err apiRequest payloads results w).2,
      (log ++ map post_request (take (attempted payloads w) payloads))%list)).
Proof.
  induction payloads as [|p ps IH]; intros results w log.
  - simpl. by rewrite app_nil_r.
  - cbn [post_each ActionsTrace.attempted]. rewrite postAction_recorded.
    destruct (postAction World Err apiRequest p w) as [[r|e] w'] eqn:Hp; simpl.
    + rewrite IH. by rewrite <- app_assoc.
    + done.
Qed.

Lemma attempted_all payloads : ∀ w,
  sequential_ok World Err apiRequest payloads w = true →
  attempted payloads w = length payloads.
Proof.
  induction payloads as [|p ps IH]; intros w Hok; simpl in *; [done|].
  destruct (postAction World Err apiRequest p w) as [[r|e] w']; [|done].
  by rewrite IH.
Qed.

Lemma attempted_le payloads : ∀ w, (attempted payloads w ≤ length payloads)%nat.
Proof.
  induction payloads as [|p ps IH]; intros w; simpl; [lia|].
  destruct (postAction World Err apiRequest p w) as [[r|e] w']; [|lia].
  specialize (IH w'). lia.
Qed.

(** X5: the calls postActionsBatch makes. The first is always the bulk
    POST. When it resolves, no other call is made. When it is rejected,
    the single POSTs to /api/actions follow, one per payload and in the
    order of the payloads, and none after the first rejected one; when they
    all resolve every payload was posted exactly once. Logging the calls
    changes neither the result nor the backend. *)
Theorem postActionsBatch_requests
    (payloads : list ActionPayload.t) (w : World) (log : list request) :
  ∃ singles,
    postActionsBatch Logged Err rec payloads (w, log) =
      ((postActionsBatch World Err apiRequest payloads w).1,
       ((postActionsBatch World Err apiRequest payloads w).2,
        (log ++ ("/api/actions/bulk", bulk_request payloads) :: singles)%list))
    ∧ match apiRequest "/api/actions/bulk" (bulk_request payloads) w with
      | (Resolved _, _) => singles = []
      | (Rejected _, w1) =>
          singles = map post_request (take (attempted payloads w1) payloads)
          ∧ (attempted payloads w1 ≤ length payloads)%nat
          ∧ (sequential_ok World Err apiRequest payloads w1 = true →
             singles = map post_request payloads)
      end.
Proof.
  unfold postActionsBatch, recorded at 1. simpl.
  destruct (apiRequest "/api/actions/bulk" (bulk_request payloads) w) as [[r|err] w1].
  - exists []. by split.
  - exists (map post_request (take (attempted payloads w1) payloads)).
    rewrite post_each_recorded.
    destruct (post_each World Err apiRequest payloads [] w1) as [[rs|e] w2]; simpl.
    + rewrite <- app_assoc. split; [done|]. split; [done|].
      split; [apply attempted_le|]. intros Hok.
      by rewrite attempted_all, firstn_all.
    + rewrite <- app_assoc. split; [done|]. split; [done|].
      split; [apply attempted_le|]. intros Hok.
      by rewrite attempted_all, firstn_all.
Qed.

Lemma post_each_inr payloads : ∀ results w e w',
  post_each World Err apiRequest payloads results w = (inr e, w') →
  sequential_ok World Err apiRequest payloads w = false.
Proof.
  induction payloads as [|p ps IH]; intros results w e w' Hrun; simpl in *; [done|].
  destruct (postAction World Err apiRequest p w) as [[r|e0] w0]; [|done].
  by eapply IH.
Qed.

(** X6: postActionsBatch is rejected only when the bulk request was
    rejected and one of the single posts was rejected too, and the error it
    carries is then the one of the bulk request; in particular an empty
    batch is never rejected. *)
Theorem postActionsBatch_rejects_only_after_both_fail
    (payloads : list ActionPayload.t) (w : World) :
  (∀ e w',
     postActionsBatch World Err apiRequest payloads w = (Rejected e, w') →
     ∃ w1,
       apiRequest "/api/actions/bulk" (bulk_request payloads) w = (Rejected e, w1)
       ∧ sequential_ok World Err apiRequest payloads w1 = false)
  ∧ (payloads = [] →
     ∃ v w', postActionsBatch World Err apiRequest payloads w = (Resolved v, w')).
Proof.
  unfold postActionsBatch. split.
  - intros e w' Hrej.
    destruct (apiRequest "/api/actions/bulk" (bulk_request payloads) w) as [[r|err] w1];
      [done|].
    destruct (post_each World Err apiRequest payloads [] w1) as [[rs|e0] w2] eqn:Hrun;
      [done|].
    injection Hrej as -> ->. exists w1. split; [done|]. by eapply post_each_inr.
  - intros ->.
    destruct (apiRequest "/api/actions/bulk" (bulk_request []) w) as [[r|err] w1];
      by eexists _, _.
Qed.

Lemma purchase_body_inj pid1 pid2 k1 k2 :
  JSON_stringify (purchase_body pid1 k1) = JSON_stringify (purchase_body pid2 k2) →
  pid1 = pid2 ∧ k1 = k2.
Proof.
  assert (∀ pid, JSON_stringify (purchase_body pid None)
            = Some ("{" +:+ quote "product_id" +:+ ":" +:+ quote pid +:+ "}")) as Hnone
    by reflexivity.
  assert (∀ pid k, JSON_stringify (purchase_body pid (Some k))
            = Some ("{" +:+ quote "product_id" +:+ ":" +:+ quote pid +:+ ","
                    +:+ quote "idempotency_key" +:+ ":" +:+ quote k +:+ "}")) as Hsome.
  { intros pid k. unfold JSON_stringify, purchase_body, serialize, join_comma, quote.
    simpl. rewrite !append_assoc. reflexivity. }
  destruct k1 as [k1|], k2 as [k2|]; rewrite ?Hnone, ?Hsome; intros Heq;
    apply (inj Some) in Heq;
    apply append_inv_head in Heq; apply quote_inj in Heq as [_ Heq];
    apply append_inv_head in Heq; apply quote_inj in Heq as [-> Heq].
  - apply append_inv_head in Heq. apply quote_inj in Heq as [_ Heq].
    apply append_inv_head in Heq. apply quote_inj in Heq as [-> _]. done.
  - discriminate.
  - discriminate.
  - done.
Qed.

(** X7: the request buyProduct issues tells the purchases apart: when two
    payloads lead to the same logged call, they name the same product and
    carry the same key once an empty key is read as no key. No quote,
    backslash or control character in a product id or key can make two
    different purchases look alike. *)
Theorem buyProduct_request_determines_purchase
    (p1 p2 : ShopBuyPayload.t) (w : World) :
  (buyProduct Logged Err rec p1 (w, [])).2.2 = (buyProduct Logged Err rec p2 (w, [])).2.2 →
  ShopBuyPayload.product_id p1 = ShopBuyPayload.product_id p2
  ∧ sent_key (ShopBuyPayload.idempotency_key p1)
    = sent_key (ShopBuyPayload.idempotency_key p2).
Proof.
  assert (∀ p, (buyProduct Logged Err rec p (w, [])).2.2 =
            [("/api/shop/purchase",
              {| method := "POST";
                 body := JSON_stringify
                           (purchase_body (ShopBuyPayload.product_id p)
                              (sent_key (ShopBuyPayload.idempotency_key p))) |})]) as Hreq.
  { intros [uid pid amt qty meta key]. unfold buyProduct, recorded. simpl.
    destruct (apiRequest _ _ w) as [o w'] eqn:Hcall. simpl. do 3 f_equal.
    unfold sent_key, purchase_body. destruct key as [k|]; [|done].
    unfold js_or; simpl. destruct (decide (k = EmptyString)) as [->|Hne]; [done|].
    by destruct k. }
  rewrite !Hreq. intros [= Hbody]. by apply purchase_body_inj.
Qed.

End WithApi.

Import ActionsExamples ActionsTraceExamples.

Lemma buyProduct_request_determines_purchase_witness :
  ShopBuyPayload.product_id gems_with_empty_key
  = ShopBuyPayload.product_id gems_without_key
  ∧ sent_key (ShopBuyPayload.idempotency_key gems_with_empty_key)
    = sent_key (ShopBuyPayload.idempotency_key gems_without_key).
Proof.
  apply (buyProduct_request_determines_purchase nat string flaky_api
           gems_with_empty_key gems_without_key 0%nat).
  reflexivity.
Defined.

End ActionsTraceSpec.

(* ===================================================================== *)
(** ** The revision as a whole, and [downgrade] *)
(* ===================================================================== *)

Module MigrationDownSpec.
Import Migration MigrationDown ListFacts.

Lemma upgraded_other x t : x ∉ revised_tables → upgraded x t = t.
Proof.
  unfold revised_tables, upgraded, singles_of. intros Hnot.
  repeat (match goal with
          | |- context [String.eqb x ?s] =>
              destruct (String.eqb_spec x s) as [->|_]; [exfalso; apply Hnot; set_solver|]
          end).
  done.
Qed.

Lemma tightened_uniques t : uniques (tightened t) = uniques t.
Proof.
  unfold tightened. destruct (find_column _ _) as [c|]; [|done].
  by destruct (default true (nullable c)).
Qed.

(** The revision, table by table. *)
Lemma upgrade_full db :
  schema_ok db →
  ∃ db', upgrade db = Ok db'
    ∧ schema_ok db'
    ∧ ∀ x, db' !! x = upgraded x <$> db !! x.
Proof.
  intros Hok. unfold upgrade.
  destruct (MigrationSpec.cleanup_uniques_spec "shop_transactions"
              [["user_id"]; ["product_id"]] db Hok)
    as (db1 & -> & Hok1 & Hfr1 & Hl1).
  destruct (MigrationSpec.cleanup_uniques_spec "follow_relations"
              [["user_id"]; ["target_user_id"]] db1 Hok1)
    as (db2 & E2 & Hok2 & Hfr2 & Hl2).
  destruct (MigrationSpec.cleanup_uniques_spec "event_mission_links"
              [["event_id"]; ["mission_template_id"]] db2 Hok2)
    as (db3 & E3 & Hok3 & Hfr3 & Hl3).
  destruct (MigrationSpec.tighten_game_stats_spec db3) as (db4 & E4 & Hfr4 & Hl4).
  rewrite MigrationSpec.bind_Ok, E2, MigrationSpec.bind_Ok, E3, MigrationSpec.bind_Ok, E4.
  exists db4. split; [done|].
  assert (∀ x, db4 !! x = upgraded x <$> db !! x) as Hall.
  { intros x.
    destruct (decide (x = "shop_transactions")) as [->|H1].
    { rewrite Hfr4, Hfr3, Hfr2 by done. by rewrite Hl1. }
    destruct (decide (x = "follow_relations")) as [->|H2].
    { rewrite Hfr4, Hfr3 by done. rewrite Hl2, Hfr1 by done. done. }
    destruct (decide (x = "event_mission_links")) as [->|H3].
    { rewrite Hfr4 by done. rewrite Hl3, Hfr2, Hfr1 by done. done. }
    destruct (decide (x = "game_stats")) as [->|H4].
    { rewrite Hl4, Hfr3, Hfr2, Hfr1 by done. done. }
    rewrite Hfr4, Hfr3, Hfr2, Hfr1 by done.
    destruct (db !! x) as [t|]; [|done]. simpl. f_equal. symmetry.
    apply upgraded_other. unfold revised_tables.
    rewrite !not_elem_of_cons. repeat split; try done. apply not_elem_of_nil. }
  split; [|done].
  intros x t' Hx. rewrite Hall in Hx.
  destruct (db !! x) as [t|] eqn:Ht; [|done]. injection Hx as <-.
  pose proof (Hok x t Ht) as Hnd. unfold names_unique in *.
  unfold upgraded. destruct (singles_of x) as [singles|].
  - unfold cleaned, with_uniques. simpl. by apply MigrationSpec.filter_names_NoDup.
  - destruct (String.eqb x "game_stats"); [|done]. by rewrite tightened_uniques.
Qed.




Lemma singles_of_single tbl singles cols :
  singles_of tbl = Some singles → cols ∈ singles → length cols = 1%nat.
Proof.
  unfold singles_of. intros Hs Hin.
  repeat (match type of Hs with
          | context [String.eqb tbl ?s] => destruct (String.eqb tbl s)
          end);
    try discriminate; injection Hs as <-;
    repeat (apply elem_of_cons in Hin as [->|Hin]; [done|]);
    by apply elem_of_nil in Hin.
Qed.




Lemma cleaned_idem singles t : cleaned singles (cleaned singles t) = cleaned singles t.
Proof.
  unfold cleaned, with_uniques. simpl. f_equal.
  rewrite list_filter_filter. apply list_filter_iff. tauto.
Qed.

Lemma tightened_idem t : tightened (tightened t) = tightened t.
Proof.
  unfold tightened at 2. destruct (find_column "user_id" (columns t)) as [c|] eqn:Hc.
  - destruct (default true (nullable c)) eqn:Hn.
    + unfold tightened. simpl.
      rewrite MigrationSpec.find_column_set_not_null, Hc. simpl.
      apply MigrationSpec.find_column_Some in Hc as [Hname _].
      assert (nullable (set_not_null "user_id" c) = Some false) as ->
        by (unfold set_not_null; by rewrite bool_decide_eq_true_2).
      by rewrite Hn.
    + unfold tightened. by rewrite Hc, Hn.
  - unfold tightened. by rewrite Hc.
Qed.

Lemma upgraded_idem x t : upgraded x (upgraded x t) = upgraded x t.
Proof.
  unfold upgraded. destruct (singles_of x); [apply cleaned_idem|].
  destruct (String.eqb x "game_stats"); [apply tightened_idem | done].
Qed.

(** X9: applying the revision to a database it was already applied to
    succeeds and changes nothing. *)
Theorem upgrade_twice (db : database) :
  schema_ok db →
  ∃ db', upgrade db = Ok db' ∧ upgrade db' = Ok db'.
Proof.
  intros Hok. destruct (upgrade_full db Hok) as (db' & Hup & Hok' & Hall).
  destruct (upgrade_full db' Hok') as (db'' & Hup' & _ & Hall').
  exists db'. split; [done|]. rewrite Hup'. f_equal.
  apply map_eq. intros x. rewrite Hall', Hall.
  destruct (db !! x) as [t|]; [|done]. simpl. by rewrite upgraded_idem.
Qed.

(** *** Rows under the pair constraints *)

Lemma violates_unique_pair (t : table) (r : row) (a b : string) :
  (∀ u, u ∈ uniques t → a ∈ column_names u ∧ b ∈ column_names u) →
  (∀ r', r' ∈ rows t → cell r' a ≠ cell r a ∨ cell r' b ≠ cell r b) →
  violates_unique t r = false.
Proof.
  intros Hcols Hfresh. unfold violates_unique.
  apply not_true_is_false. intros Hex.
  apply existsb_exists in Hex as (u & Hu & Hex).
  apply existsb_exists in Hex as (r' & Hr' & Hcol).
  apply list_elem_of_In in Hu, Hr'. destruct (Hcols u Hu) as [Ha Hb].
  destruct (Hfresh r' Hr') as [Hne|Hne].
  - rewrite (MigrationSpec.collides_differ u r r' a) in Hcol; [done|done|congruence].
  - rewrite (MigrationSpec.collides_differ u r r' b) in Hcol; [done|done|congruence].
Qed.

(** One of the three clean-ups, seen through the rows the table then
    accepts and refuses. *)
Lemma cleaned_pair_table (tbl : string) (singles : list (list string)) (a b : string)
    (db : database) (t : table) :
  singles_of tbl = Some singles →
  schema_ok db →
  db !! tbl = Some t →
  ∃ db',
    upgrade db = Ok db'
    ∧ db' !! tbl = Some (cleaned singles t)
    ∧ (∀ u, u ∈ uniques (cleaned singles t) → column_names u ∉ singles)
    ∧ ((∀ u, u ∈ uniques t →
          column_names u ∈ singles ∨ (a ∈ column_names u ∧ b ∈ column_names u)) →
       ∀ r, violates_not_null t r = false →
            (∀ r', r' ∈ rows t → cell r' a ≠ cell r a ∨ cell r' b ≠ cell r b) →
            ∃ db1 t1, insert_row tbl r db' = Ok db1
                      ∧ db1 !! tbl = Some t1 ∧ rows t1 = (rows t ++ [r])%list)
    ∧ ((∃ u, u ∈ uniques t ∧ column_names u = [a; b]) →
       ∀ r r', r' ∈ rows t →
               is_Some (key_of [a; b] r) →
               key_of [a; b] r = key_of [a; b] r' →
               ∃ msg, insert_row tbl r db' = Raise msg).
Proof.
  intros Hs Hok Ht. destruct (upgrade_full db Hok) as (db' & Hup & _ & Hall).
  assert (db' !! tbl = Some (cleaned singles t)) as Hl.
  { rewrite Hall, Ht. simpl. unfold upgraded. by rewrite Hs. }
  exists db'. split; [done|]. split; [done|].
  assert (∀ u, u ∈ uniques (cleaned singles t)
            ↔ u ∈ uniques t ∧ column_names u ∉ singles) as Hkept.
  { intros u. unfold cleaned, with_uniques. simpl. rewrite list_elem_of_filter. tauto. }
  split; [|split].
  - intros u Hu. by apply Hkept in Hu as [_ ?].
  - intros Hcover r Hnn Hfresh. unfold insert_row. rewrite Hl.
    change (violates_not_null (cleaned singles t) r) with (violates_not_null t r).
    rewrite Hnn, (violates_unique_pair _ r a b).
    + eexists _, _. split; [done|]. rewrite lookup_insert_eq. done.
    + intros u Hu. apply Hkept in Hu as [Hu Hnot].
      by destruct (Hcover u Hu) as [?|?].
    + done.
  - intros (u & Hu & Hcols) r r' Hr' [k Hk] Hsame. unfold insert_row. rewrite Hl.
    destruct (violates_not_null _ r); [by eexists|].
    assert (violates_unique (cleaned singles t) r = true) as ->; [|by eexists].
    unfold violates_unique. apply existsb_exists. exists u. split.
    + apply list_elem_of_In, Hkept. split; [done|]. rewrite Hcols. intros Hin.
      by pose proof (singles_of_single tbl singles _ Hs Hin).
    + apply existsb_exists. exists r'. split; [by apply list_elem_of_In|].
      unfold collides. rewrite Hcols, <- Hsame, Hk. by apply bool_decide_eq_true.
Qed.

(** X10: after the revision follow_relations has no unique constraint on
    user_id alone or on target_user_id alone, so following is many-to-many:
    when the remaining constraints cover both columns, a follow row is
    accepted as soon as no stored row has the same user and the same
    target; the pair constraint, when there is one, still refuses the same
    pair twice. *)
Theorem follow_relations_many_to_many (db : database) (t : table) :
  schema_ok db →
  db !! "follow_relations" = Some t →
  ∃ db' t',
    upgrade db = Ok db'
    ∧ db' !! "follow_relations" = Some t'
    ∧ (∀ u, u ∈ uniques t' →
         column_names u ≠ ["user_id"] ∧ column_names u ≠ ["target_user_id"])
    ∧ ((∀ u, u ∈ uniques t →
          column_names u = ["user_id"] ∨ column_names u = ["target_user_id"]
          ∨ ("user_id" ∈ column_names u ∧ "target_user_id" ∈ column_names u)) →
       ∀ r, violates_not_null t r = false →
            (∀ r', r' ∈ rows t →
               cell r' "user_id" ≠ cell r "user_id"
               ∨ cell r' "target_user_id" ≠ cell r "target_user_id") →
            ∃ db1 t1, insert_row "follow_relations" r db' = Ok db1
                      ∧ db1 !! "follow_relations" = Some t1
                      ∧ rows t1 = (rows t ++ [r])%list)
    ∧ ((∃ u, u ∈ uniques t ∧ column_names u = ["user_id"; "target_user_id"]) →
       ∀ r r', r' ∈ rows t →
               is_Some (key_of ["user_id"; "target_user_id"] r) →
               key_of ["user_id"; "target_user_id"] r
               = key_of ["user_id"; "target_user_id"] r' →
               ∃ msg, insert_row "follow_relations" r db' = Raise msg).
Proof.
  intros Hok Ht.
  destruct (cleaned_pair_table "follow_relations" [["user_id"]; ["target_user_id"]]
              "user_id" "target_user_id" db t eq_refl Hok Ht)
    as (db' & Hup & Hl & Hnone & Hins & Hdup).
  eexists db', _. split; [done|]. split; [exact Hl|]. split; [|split].
  - intros u Hu. apply Hnone in Hu. rewrite !not_elem_of_cons in Hu. tauto.
  - intros Hcover. apply Hins. intros u Hu.
    destruct (Hcover u Hu) as [->|[->|?]]; [left; by left | left; right; by left | by right].
  - done.
Qed.

(** X11: after the revision event_mission_links has no unique constraint
    on event_id alone or on mission_template_id alone: when the remaining
    constraints cover both columns, a link is accepted as soon as no stored
    link has the same event and the same mission template, and the pair
    constraint, when there is one, still refuses a duplicate link. *)
Theorem event_mission_links_pairs_only (db : database) (t : table) :
  schema_ok db →
  db !! "event_mission_links" = Some t →
  ∃ db' t',
    upgrade db = Ok db'
    ∧ db' !! "event_mission_links" = Some t'
    ∧ (∀ u, u ∈ uniques t' →
         column_names u ≠ ["event_id"] ∧ column_names u ≠ ["mission_template_id"])
    ∧ ((∀ u, u ∈ uniques t →
          column_names u = ["event_id"] ∨ column_names u = ["mission_template_id"]
          ∨ ("event_id" ∈ column_names u ∧ "mission_template_id" ∈ column_names u)) →
       ∀ r, violates_not_null t r = false →
            (∀ r', r' ∈ rows t →
               cell r' "event_id" ≠ cell r "event_id"
               ∨ cell r' "mission_template_id" ≠ cell r "mission_template_id") →
            ∃ db1 t1, insert_row "event_mission_links" r db' = Ok db1
                      ∧ db1 !! "event_mission_links" = Some t1
                      ∧ rows t1 = (rows t ++ [r])%list)
    ∧ ((∃ u, u ∈ uniques t ∧ column_names u = ["event_id"; "mission_template_id"]) →
       ∀ r r', r' ∈ rows t →
               is_Some (key_of ["event_id"; "mission_template_id"] r) →
               key_of ["event_id"; "mission_template_id"] r
               = key_of ["event_id"; "mission_template_id"] r' →
               ∃ msg, insert_row "event_mission_links" r db' = Raise msg).
Proof.
  intros Hok Ht.
  destruct (cleaned_pair_table "event_mission_links"
              [["event_id"]; ["mission_template_id"]]
              "event_id" "mission_template_id" db t eq_refl Hok Ht)
    as (db' & Hup & Hl & Hnone & Hins & Hdup).
  eexists db', _. split; [done|]. split; [exact Hl|]. split; [|split].
  - intros u Hu. apply Hnone in Hu. rewrite !not_elem_of_cons in Hu. tauto.
  - intros Hcover. apply Hins. intros u Hu.
    destruct (Hcover u Hu) as [->|[->|?]]; [left; by left | left; right; by left | by right].
  - done.
Qed.

Import MigrationDownExamples.

Lemma schema_ok_social_db : schema_ok social_db.
Proof. apply (bool_decide_unpack (schema_ok social_db)). vm_compute. exact I. Defined.


Lemma upgrade_twice_witness :
  ∃ db', upgrade social_db = Ok db' ∧ upgrade db' = Ok db'.
Proof. apply (upgrade_twice social_db schema_ok_social_db). Defined.

Lemma follow_relations_many_to_many_witness :
  ∃ db' db1 db2 msg,
    upgrade social_db = Ok db'
    ∧ insert_row "follow_relations" (follow 1 3) db' = Ok db1
    ∧ insert_row "follow_relations" (follow 4 2) db' = Ok db2
    ∧ insert_row "follow_relations" (follow 1 2) db' = Raise msg.
Proof.
  destruct (follow_relations_many_to_many social_db follow_relations_before
              schema_ok_social_db eq_refl)
    as (db' & t' & Hup & _ & _ & Hins & Hdup).
  assert (∀ u, u ∈ uniques follow_relations_before →
            column_names u = ["user_id"] ∨ column_names u = ["target_user_id"]
            ∨ ("user_id" ∈ column_names u ∧ "target_user_id" ∈ column_names u)) as Hcover.
  { intros u Hu. simpl in Hu. repeat (apply elem_of_cons in Hu as [->|Hu]).
    - by left.
    - right. by left.
    - right. right. simpl. split; [by left | right; by left].
    - by apply elem_of_nil in Hu. }
  destruct (Hins Hcover (follow 1 3)) as (db1 & _ & H1 & _).
  { vm_compute. reflexivity. }
  { intros r' Hr'. simpl in Hr'. apply list_elem_of_singleton in Hr' as ->.
    right. vm_compute. discriminate. }
  destruct (Hins Hcover (follow 4 2)) as (db2 & _ & H2 & _).
  { vm_compute. reflexivity. }
  { intros r' Hr'. simpl in Hr'. apply list_elem_of_singleton in Hr' as ->.
    left. vm_compute. discriminate. }
  destruct (Hdup) with (r := follow 1 2) (r' := follow 1 2) as [msg H3].
  { exists {| name := "uq_follow_pair"; column_names := ["user_id"; "target_user_id"] |}.
    split; [|done]. simpl. right. right. by left. }
  { simpl. by left. }
  { by eexists. }
  { reflexivity. }
  by exists db', db1, db2, msg.
Defined.

Lemma event_mission_links_pairs_only_witness :
  ∃ db' db1 msg,
    upgrade social_db = Ok db'
    ∧ insert_row "event_mission_links" (link 10 21) db' = Ok db1
    ∧ insert_row "event_mission_links" (link 10 20) db' = Raise msg.
Proof.
  destruct (event_mission_links_pairs_only social_db event_mission_links_before
              schema_ok_social_db eq_refl)
    as (db' & t' & Hup & _ & _ & Hins & Hdup).
  destruct (Hins) with (r := link 10 21) as (db1 & _ & H1 & _).
  { intros u Hu. simpl in Hu. repeat (apply elem_of_cons in Hu as [->|Hu]).
    - by left.
    - right. by left.
    - right. right. simpl. split; [by left | right; by left].
    - by apply elem_of_nil in Hu. }
  { vm_compute. reflexivity. }
  { intros r' Hr'. simpl in Hr'. apply list_elem_of_singleton in Hr' as ->.
    right. vm_compute. discriminate. }
  destruct (Hdup) with (r := link 10 20) (r' := link 10 20) as [msg H2].
  { exists {| name := "uq_link_pair";
              column_names := ["event_id"; "mission_template_id"] |}.
    split; [|done]. simpl. right. right. by left. }
  { simpl. by left. }
  { by eexists. }
  { reflexivity. }
  by exists db', db1, msg.
Defined.

(** Before the revision the single-column constraints allow a user only
    one follow. *)
Example second_follow_blocked_before :
  insert_row "follow_relations" (follow 1 3) social_db
  = Raise "duplicate key value violates unique constraint".
Proof. vm_compute. reflexivity. Qed.

(** *** [downgrade] *)

Lemma set_nullable_name col c : col_name (set_nullable col c) = col_name c.
Proof. unfold set_nullable. by destruct (bool_decide _). Qed.

Lemma find_column_set_nullable col cols :
  find_column col (map (set_nullable col) cols) = set_nullable col <$> find_column col cols.
Proof.
  unfold find_column. induction cols as [|c cols IH]; [done|]. simpl.
  rewrite set_nullable_name. by destruct (bool_decide (col_name c = col)).
Qed.

Lemma find_column_in col cols c :
  find_column col cols = Some c → c ∈ cols ∧ col_name c = col.
Proof.
  unfold find_column. intros Hf. apply find_some in Hf as [Hin Hname].
  split; [by apply list_elem_of_In | by apply bool_decide_eq_true in Hname].
Qed.

Lemma find_column_None col cols :
  find_column col cols = None → col ∉ map col_name cols.
Proof.
  unfold find_column. intros Hf Hin.
  apply list_elem_of_fmap in Hin as (c & Hname & Hc).
  apply list_elem_of_In in Hc. pose proof (find_none _ _ Hf c Hc) as Hb. simpl in Hb.
  apply bool_decide_eq_false in Hb. by apply Hb.
Qed.

Lemma tightened_find_column t c :
  find_column "user_id" (columns t) = Some c →
  ∃ c', find_column "user_id" (columns (tightened t)) = Some c'
        ∧ col_name c' = "user_id"
        ∧ default true (nullable c') = false.
Proof.
  intros Hc. pose proof (find_column_in _ _ _ Hc) as [_ Hname].
  unfold tightened. rewrite Hc.
  destruct (default true (nullable c)) eqn:Hn.
  - simpl. rewrite MigrationSpec.find_column_set_not_null, Hc. simpl.
    eexists. split; [done|]. unfold set_not_null.
    by rewrite bool_decide_eq_true_2.
  - by exists c.
Qed.

(** X12: the downgrade after the revision only makes game_stats.user_id
    nullable again. The rows the revision deleted stay deleted, the unique
    constraints it dropped stay dropped, and every other table is as the
    revision left it. *)
Theorem downgrade_restores_nullability_only (db : database) (t : table) (c : column) :
  schema_ok db →
  db !! "game_stats" = Some t →
  find_column "user_id" (columns t) = Some c →
  ∃ db' db'' t' t'',
    upgrade db = Ok db'
    ∧ downgrade db' = Ok db''
    ∧ db' !! "game_stats" = Some t'
    ∧ db'' !! "game_stats" = Some t''
    ∧ column_not_null "game_stats" "user_id" db' = true
    ∧ column_not_null "game_stats" "user_id" db'' = false
    ∧ rows t'' = rows t'
    ∧ uniques t'' = uniques t'
    ∧ (default true (nullable c) = true →
       rows t'' = filter (λ r, is_null r "user_id" = false) (rows t))
    ∧ (∀ x, x ≠ "game_stats" → db'' !! x = db' !! x)
    ∧ (∀ x t0, x ≠ "game_stats" → db !! x = Some t0 →
         ∃ t1, db'' !! x = Some t1
               ∧ ∀ u singles, u ∈ uniques t1 → singles_of x = Some singles →
                              column_names u ∉ singles).
Proof.
  intros Hok Ht Hc. destruct (upgrade_full db Hok) as (db' & Hup & _ & Hall).
  assert (db' !! "game_stats" = Some (tightened t)) as Hgs.
  { by rewrite Hall, Ht. }
  destruct (tightened_find_column t c Hc) as (c' & Hc' & Hname' & Hnn').
  pose proof (find_column_in _ _ _ Hc') as [Hin' _].
  assert (downgrade db' =
            Ok (<["game_stats" :=
                    {| columns := map (set_nullable "user_id") (columns (tightened t));
                       uniques := uniques (tightened t);
                       rows := rows (tightened t) |}]> db')) as Hdown.
  { unfold downgrade, alter_column_nullable. rewrite Hgs.
    rewrite bool_decide_eq_true_2; [done|].
    apply list_elem_of_fmap. exists c'. by split. }
  eexists db', _, (tightened t), _. split; [done|]. split; [exact Hdown|].
  split; [done|]. split; [by rewrite lookup_insert_eq|].
  split; [|split; [|split; [|split; [|split; [|split]]]]]; simpl.
  - unfold column_not_null. by rewrite Hgs, Hc', Hnn'.
  - unfold column_not_null. rewrite lookup_insert_eq. simpl.
    rewrite find_column_set_nullable, Hc'. simpl.
    unfold set_nullable. by rewrite bool_decide_eq_true_2.
  - done.
  - done.
  - intros Hn. unfold tightened. by rewrite Hc, Hn.
  - intros x Hx. by rewrite lookup_insert_ne.
  - intros x t0 Hx Ht0. rewrite lookup_insert_ne by done. rewrite Hall, Ht0. simpl.
    eexists. split; [done|]. intros u singles Hu Hs.
    unfold upgraded in Hu. rewrite Hs in Hu. unfold cleaned, with_uniques in Hu.
    simpl in Hu. by apply list_elem_of_filter in Hu as [? _].
Qed.

Lemma downgrade_restores_nullability_only_witness :
  ∃ db' db'',
    upgrade social_db = Ok db'
    ∧ downgrade db' = Ok db''
    ∧ column_not_null "game_stats" "user_id" db'' = false
    ∧ (length ∘ rows) <$> db'' !! "game_stats" = Some 1%nat
    ∧ (length ∘ uniques) <$> db'' !! "follow_relations" = Some 1%nat.
Proof.
  destruct (downgrade_restores_nullability_only social_db
              MigrationExamples.game_stats_before
              {| col_name := "user_id"; nullable := Some true |}
              schema_ok_social_db eq_refl eq_refl)
    as (db' & db'' & t' & t'' & Hup & Hdown & _ & Hgs & _ & Hnull & _ & _ & Hrows & Hfr & _).
  exists db', db''. split; [done|]. split; [done|]. split; [done|]. split.
  - rewrite Hgs. simpl. by rewrite (Hrows eq_refl).
  - rewrite Hfr by done. vm_compute in Hup. injection Hup as <-. reflexivity.
Defined.

(** X13: the downgrade has no existence check. On a database without a
    game_stats table, or whose game_stats has no user_id column, the
    revision is applied (it skips the table) but the downgrade raises, both
    before and after the revision. *)
Theorem downgrade_needs_game_stats_user_id (db : database) :
  schema_ok db →
  (db !! "game_stats" = None
   ∨ ∃ t, db !! "game_stats" = Some t ∧ find_column "user_id" (columns t) = None) →
  (∃ msg, downgrade db = Raise msg)
  ∧ ∃ db' msg, upgrade db = Ok db'
               ∧ db' !! "game_stats" = db !! "game_stats"
               ∧ downgrade db' = Raise msg.
Proof.
  intros Hok Hmissing. destruct (upgrade_full db Hok) as (db' & Hup & _ & Hall).
  assert (db' !! "game_stats" = db !! "game_stats") as Hsame.
  { rewrite Hall. destruct Hmissing as [-> | (t & -> & Hnone)]; [done|].
    simpl. unfold upgraded. simpl. unfold tightened. by rewrite Hnone. }
  assert (∀ d, d !! "game_stats" = db !! "game_stats" → ∃ msg, downgrade d = Raise msg)
    as Hraise.
  { intros d Hd. unfold downgrade, alter_column_nullable. rewrite Hd.
    destruct Hmissing as [-> | (t & -> & Hnone)]; [by eexists|].
    rewrite bool_decide_eq_false_2 by by apply find_column_None. by eexists. }
  split; [by apply Hraise|].
  destruct (Hraise db' Hsame) as [msg Hmsg]. by exists db', msg.
Qed.

Lemma schema_ok_no_stats_db : schema_ok no_stats_db.
Proof. apply (bool_decide_unpack (schema_ok no_stats_db)). vm_compute. exact I. Defined.

Lemma downgrade_needs_game_stats_user_id_witness :
  ∃ db' msg, upgrade no_stats_db = Ok db' ∧ downgrade db' = Raise msg.
Proof.
  destruct (downgrade_needs_game_stats_user_id no_stats_db schema_ok_no_stats_db
              (or_introl eq_refl))
    as (_ & db' & msg & Hup & _ & Hdown).
  by exists db', msg.
Defined.

(** X14: once the revision is applied to a database whose game_stats has a
    user_id column, game_stats refuses every row without a user. *)
Theorem game_stats_refuses_null_user_after_upgrade
    (db : database) (t : table) (c : column) :
  schema_ok db →
  db !! "game_stats" = Some t →
  find_column "user_id" (columns t) = Some c →
  ∃ db',
    upgrade db = Ok db'
    ∧ ∀ r, is_null r "user_id" = true →
           insert_row "game_stats" r db'
           = Raise "null value violates not-null constraint".
Proof.
  intros Hok Ht Hc. destruct (upgrade_full db Hok) as (db' & Hup & _ & Hall).
  exists db'. split; [done|]. intros r Hnull.
  unfold insert_row. rewrite Hall, Ht. simpl.
  change (upgraded "game_stats" t) with (tightened t).
  destruct (tightened_find_column t c Hc) as (c' & Hc' & Hname' & Hnn').
  pose proof (find_column_in _ _ _ Hc') as [Hin' _].
  assert (violates_not_null (tightened t) r = true) as ->; [|done].
  unfold violates_not_null. apply existsb_exists. exists c'.
  split; [by apply list_elem_of_In|]. by rewrite Hnn', Hname', Hnull.
Qed.

Lemma game_stats_refuses_null_user_after_upgrade_witness :
  ∃ db',
    upgrade social_db = Ok db'
    ∧ insert_row "game_stats" {[ "id" := VInt 9; "game_type" := VStr "slot" ]} db'
      = Raise "null value violates not-null constraint".
Proof.
  destruct (game_stats_refuses_null_user_after_upgrade social_db
              MigrationExamples.game_stats_before
              {| col_name := "user_id"; nullable := Some true |}
              schema_ok_social_db eq_refl eq_refl)
    as (db' & Hup & Hrefuse).
  exists db'. split; [done|]. apply Hrefuse. reflexivity.
Defined.

(** Before the revision the same row is accepted. *)
Example game_stats_accepts_null_user_before :
  ∃ db1, insert_row "game_stats" {[ "id" := VInt 9; "game_type" := VStr "slot" ]} social_db
         = Ok db1.
Proof. eexists. vm_compute. reflexivity. Qed.

End MigrationDownSpec.
